(** * Emergency reparent (reparentutil.EmergencyReparenter)

    A shallow embedding of the emergency reparent orchestrator of
    [go/vt/vtctl/reparentutil] and the properties its specification states
    about it.

    The orchestrator is sequential code that talks to a topology server and
    to the tablet managers, and fans work out to goroutines.  It is embedded
    as a state-and-error monad over an abstract [World] (the cluster, the
    topology server, the clock and the Go scheduler), which the operations
    of the collaborators read and advance.  Every call the orchestrator
    makes is recorded in a trace, so that statements about the order of the
    steps can be made about the code as it runs.

    The file ends with the part of the expression environment of
    [go/vt/vtgate/evalengine] that names the current user. *)

From Stdlib Require Import ZArith Lia.
From stdpp Require Import base strings pretty gmap list.

Open Scope string_scope.
Open Scope list_scope.

(** ** Data model *)

(** topodatapb.TabletAlias: the cell and the uid (uint32) of a tablet. *)
Record TabletAlias := mkAlias { Cell : string; Uid : Z }.

#[global] Instance TabletAlias_eq_dec : EqDecision TabletAlias.
Proof. solve_decision. Defined.

(** topodatapb.TabletType *)
Inductive TabletType :=
| UNKNOWN | PRIMARY | REPLICA | RDONLY | SPARE | EXPERIMENTAL
| BACKUP | RESTORE | DRAINED.

(** A value of type [Tablet] stands for a [*topodatapb.Tablet]: the fields of
    the message the orchestrator reads, and [addr], the address of the Go
    object, which is what [==] on two such pointers compares.  The alias of a
    tablet read from the topology server is never nil. *)
Record Tablet := mkTablet { addr : nat; Alias : TabletAlias; Type_ : TabletType }.

(** topo.TabletInfo wraps the tablet record read from the topology server. *)
Record TabletInfo := mkTabletInfo { TI_Tablet : Tablet }.

(** topo.ShardInfo: only [PrimaryAlias] is read here; it may be nil. *)
Record ShardInfo := mkShardInfo { PrimaryAlias : option TabletAlias }.

(** reparentutil.CandidatePromotionRule *)
Inductive CandidatePromotionRule :=
| MustPromoteRule | PreferPromoteRule | NeutralPromoteRule
| PreferNotPromoteRule | MustNotPromoteRule.

#[global] Instance CandidatePromotionRule_eq_dec : EqDecision CandidatePromotionRule.
Proof. solve_decision. Defined.

(** vtrpc.Code, the codes that occur. *)
Inductive Code :=
| Code_UNKNOWN | Code_UNAVAILABLE | Code_DEADLINE_EXCEEDED
| Code_FAILED_PRECONDITION | Code_ABORTED | Code_INTERNAL.

#[global] Instance Code_eq_dec : EqDecision Code.
Proof. solve_decision. Defined.

(** Errors are kept as the calls that build them: [vterrors.Errorf] with its
    code, format string and arguments, and [vterrors.Wrapf] around a cause.
    Errors that come from a collaborator are values of the same type. *)
Inductive Error :=
| Errorf (code : Code) (format : string) (args : list Arg)
| Wrapf (cause : Error) (format : string) (args : list Arg)
with Arg :=
| ArgString (s : string)
| ArgAlias (a : TabletAlias)
| ArgError (e : Error)
| ArgInt (n : Z).

(** vterrors.Code: a wrapped error has the code of its cause. *)
Fixpoint Code_of (e : Error) : Code :=
  match e with
  | Errorf c _ _ => c
  | Wrapf cause _ _ => Code_of cause
  end.

(** EmergencyReparentOptions.  [WaitReplicasTimeout] is a time.Duration
    (int64 nanoseconds). *)
Record EmergencyReparentOptions := mkOpts {
  NewPrimaryAlias : option TabletAlias;
  IgnoreReplicas : gset string;
  WaitReplicasTimeout : Z;
  PreventCrossCellPromotion : bool;
  lockAction : string
}.

Definition set_lockAction (a : string) (o : EmergencyReparentOptions) :=
  {| NewPrimaryAlias := NewPrimaryAlias o;
     IgnoreReplicas := IgnoreReplicas o;
     WaitReplicasTimeout := WaitReplicasTimeout o;
     PreventCrossCellPromotion := PreventCrossCellPromotion o;
     lockAction := a |}.

(** events.Reparent, the event object [ev] that the operation fills in. *)
Record Reparent := mkReparent {
  ev_ShardInfo : option ShardInfo;
  ev_NewPrimary : option Tablet
}.

(** The three gauges.  stats.Gauge holds an int64; [Add] wraps around. *)
Record Stats := mkStats {
  ersCounter : Z;
  ersSuccessCounter : Z;
  ersFailureCounter : Z
}.

Definition int64_min : Z := - 2 ^ 63.
Definition int64_max : Z := 2 ^ 63 - 1.

Definition wrap_int64 (z : Z) : Z := (z + 2 ^ 63) mod 2 ^ 64 - 2 ^ 63.

Definition Gauge_Add (g delta : Z) : Z := wrap_int64 (g + delta).

(** ** The trace *)

(** The orchestrator's own functions, for the entry and exit marks. *)
Inductive Fn :=
| F_reparentShardLocked
| F_waitForAllRelayLogsToApply
| F_findMostAdvanced
| F_intermediateCandidateIsIdeal
| F_promoteIntermediatePrimary
| F_reparentReplicas (newPrimary : Tablet) (waitForAllReplicas populateReparentJournal : bool)
| F_identifyPrimaryCandidate (validCandidates : list Tablet)
| F_checkIfConstraintsSatisfied (newPrimary : Tablet) (prevPrimary : option Tablet)
| F_promoteNewPrimary (newPrimary : Tablet).

(** The two cases of the [select] at the end of reparentReplicas. *)
Inductive SelectCase := ReplSuccessDone | AllReplicasDone.

Inductive Event :=
(** erp.logger.Infof / Warningf / Errorf, by format string *)
| Log (format : string)
(** event.DispatchUpdate(ev, status) *)
| DispatchUpdate (status : string)
(** calls to the topology server *)
| Topo_LockShard (action : string)
| Topo_unlock (err : option Error)
| Topo_GetShard
| Topo_GetTablet (alias : TabletAlias)
| Topo_GetTabletMapForShard
| Topo_CheckShardLocked
(** calls to the tablet managers, and the package's helpers that make such calls *)
| Call_StopReplicationAndBuildStatusMaps
| Call_WaitForRelayLogsToApply (alias : string)
| Call_waitForCatchUp (source target : Tablet)
| Rpc_MasterPosition (tablet : Tablet)
| Rpc_PopulateReparentJournal (tablet : Tablet)
| Rpc_SetMaster (tablet : Tablet) (parent : TabletAlias) (forceStart : bool)
| Rpc_PromoteReplica (tablet : Tablet)
(** len(validCandidates) once restrictValidCandidates has returned without error *)
| Restricted (len : nat)
(** rec.RecordError(err) in a replica goroutine of reparentReplicas *)
| RecordError (err : Error)
(** which case the select of reparentReplicas took *)
| Select (c : SelectCase)
(** entry into, and return from, one of the orchestrator's functions *)
| Enter (f : Fn)
| Return_ (f : Fn) (err : option Error).

(** ** The collaborators *)

(** What the orchestrator calls but does not define: the topology server, the
    tablet manager client, the helpers of the package that live in other
    files, and the Go scheduler.  An operation with an effect takes the
    [World] and returns the next one; a call that returns [(value, error)]
    returns a sum, a call that returns only an error returns an option. *)
Class Collaborators := {
  World : Type;
  (** mysql.Position and its order *)
  Position : Type;
  AtLeast : Position → Position → bool;
  (** replicationdatapb.StopReplicationStatus and PrimaryStatus *)
  StopReplicationStatus : Type;
  PrimaryStatus : Type;
  (** topoproto.TabletAliasString *)
  TabletAliasString : TabletAlias → string;
  (** topo.Server and topo.CheckShardLocked *)
  LockShard : string → string → string → World → option Error * World;
  unlock : option Error → World → World;
  GetShard : string → string → World → (Error + ShardInfo) * World;
  GetTablet : TabletAlias → World → (Error + TabletInfo) * World;
  GetTabletMapForShard : string → string → World → (Error + gmap string TabletInfo) * World;
  CheckShardLocked : string → string → World → option Error * World;
  (** tmclient.TabletManagerClient; a position is returned as a string *)
  MasterPosition : Tablet → World → (Error + string) * World;
  PopulateReparentJournal :
    Tablet → Z → string → TabletAlias → string → World → option Error * World;
  SetMaster : Tablet → TabletAlias → Z → string → bool → World → option Error * World;
  PromoteReplica : Tablet → World → (Error + string) * World;
  (** helpers of package reparentutil defined in other files *)
  StopReplicationAndBuildStatusMaps :
    gmap string TabletInfo → Z → gset string → World →
    (Error + gmap string StopReplicationStatus * gmap string PrimaryStatus) * World;
  FindValidEmergencyReparentCandidates :
    gmap string StopReplicationStatus → gmap string PrimaryStatus →
    Error + gmap string Position;
  restrictValidCandidates :
    gmap string Position → gmap string TabletInfo → Error + gmap string Position;
  WaitForRelayLogsToApply :
    option TabletInfo → StopReplicationStatus → World → option Error * World;
  getValidCandidatesAndPositionsAsList :
    gmap string Position → gmap string TabletInfo →
    Error + list Tablet * list Position;
  (** sorts the two slices in place: the result is their new content *)
  sortTabletsForERS :
    list Tablet → list Position → string →
    option Error * (list Tablet * list Position);
  ReplicaWasRunning : StopReplicationStatus → Error + bool;
  PromotionRule : Tablet → CandidatePromotionRule;
  findPossibleCandidateFromListWithRestrictions :
    Tablet → option Tablet → list Tablet → bool → bool → option Tablet;
  waitForCatchUp : Tablet → Tablet → Z → World → option Error * World;
  (** concurrency.AllErrorRecorder.Error: the recorded errors as one error *)
  AllErrorRecorder_Error : list Error → Error;
  (** err.Error(), the text of an error *)
  Error_text : Error → string;
  (** time.Now().UnixNano() *)
  time_Now : World → Z * World;
  (** The Go scheduler.  [sched_order] is the order in which the goroutines
      of one fan-out complete; [sched_early] is how many of them complete
      before the main goroutine makes its next call; [sched_wakes] tells, once
      the first-success signal is up and goroutines are still running, whether
      the main goroutine is resumed at once; [sched_select] is the case that
      [select] takes when both signals are up. *)
  sched_order : ∀ A : Type, World → list A → list A;
  sched_early : World → nat;
  sched_wakes : World → bool;
  sched_select : World → SelectCase;
  (** a slice sorted in place keeps its length *)
  sortTabletsForERS_length : ∀ ts ps cell,
    length (sortTabletsForERS ts ps cell).2.1 = length ts ∧
    length (sortTabletsForERS ts ps cell).2.2 = length ps;
  (** every goroutine of a fan-out completes once *)
  sched_order_perm : ∀ A w (l : list A), sched_order A w l ≡ₚ l
}.

(** ** The monad: state, errors, panics and the trace *)

Inductive Result (A : Type) :=
| Ok (a : A)
| Err (e : Error)
| Panic (msg : string).
Arguments Ok {A} a.
Arguments Err {A} e.
Arguments Panic {A} msg.

(** The returned error of a call that returns only an error. *)
Definition err_of {A} (r : Result A) : option Error :=
  match r with Err e => Some e | _ => None end.

Section Orchestrator.
Context `{C : Collaborators}.

(** The state: the world outside, the package's gauges, and the event
    object [ev] of the running operation. *)
Record St := mkSt { world : World; stats : Stats; ev : Reparent }.

Record Out (A : Type) := mkOut { result : Result A; final : St; trace : list Event }.
Arguments mkOut {A} result final trace.
Arguments result {A} o.
Arguments final {A} o.
Arguments trace {A} o.

Definition M (A : Type) : Type := St → Out A.

Definition ret {A} (a : A) : M A := λ st, mkOut (Ok a) st [].
Definition throw {A} (e : Error) : M A := λ st, mkOut (Err e) st [].
Definition panic {A} (msg : string) : M A := λ st, mkOut (Panic msg) st [].

Definition bind {A B} (m : M A) (k : A → M B) : M B := λ st,
  let o := m st in
  match result o with
  | Ok a => let o' := k a (final o) in
            mkOut (result o') (final o') (trace o ++ trace o')
  | Err e => mkOut (Err e) (final o) (trace o)
  | Panic msg => mkOut (Panic msg) (final o) (trace o)
  end.

Notation "x <- m ;; k" := (bind m (λ x, k))
  (at level 100, m at next level, right associativity, only parsing).
Notation "m ;; k" := (bind m (λ _, k))
  (at level 100, right associativity, only parsing).

(** One record in the trace. *)
Definition emit (e : Event) : M unit := λ st, mkOut (Ok tt) st [e].

Definition logf (format : string) : M unit := emit (Log format).

Definition event_DispatchUpdate (status : string) : M unit :=
  emit (DispatchUpdate status).

Definition set_world (w : World) (st : St) : St :=
  mkSt w (stats st) (ev st).

(** A call that returns [(value, err)]. *)
Definition call {A} (e : Event) (f : World → (Error + A) * World) : M A := λ st,
  let r := f (world st) in
  mkOut (match r.1 with inl err => Err err | inr a => Ok a end)
        (set_world r.2 st) [e].

(** A call that returns [err]. *)
Definition call_ (e : Event) (f : World → option Error * World) : M unit := λ st,
  let r := f (world st) in
  mkOut (match r.1 with Some err => Err err | None => Ok tt end)
        (set_world r.2 st) [e].

(** A helper without effects that returns [(value, err)]. *)
Definition helper {A} (r : Error + A) : M A :=
  match r with inl err => throw err | inr a => ret a end.

(** Reading the scheduler's choice or the clock. *)
Definition ask {A} (f : World → A) : M A := λ st, mkOut (Ok (f (world st))) st [].

Definition tick {A} (f : World → A * World) : M A := λ st,
  let r := f (world st) in mkOut (Ok r.1) (set_world r.2 st) [].

(** [err := m; if err != nil { ... }]: the error as a value. *)
Definition try_ {A} (m : M A) : M (Error + A) := λ st,
  let o := m st in
  mkOut (match result o with
         | Ok a => Ok (inr a)
         | Err e => Ok (inl e)
         | Panic msg => Panic msg
         end) (final o) (trace o).

(** [if err != nil { return f(err) }] *)
Definition on_error {A} (f : Error → Error) (m : M A) : M A := λ st,
  let o := m st in
  mkOut (match result o with Err e => Err (f e) | r => r end) (final o) (trace o).

(** A deferred function that rewrites the named result [err] of a function
    that returns only an error.  It has no say when the function panics. *)
Definition deferred (f : option Error → option Error) (m : M unit) : M unit := λ st,
  let o := m st in
  mkOut (match result o with
         | Panic msg => Panic msg
         | r => match f (err_of r) with Some e => Err e | None => Ok tt end
         end) (final o) (trace o).

(** Entry and return marks around a function of the orchestrator. *)
Definition traced {A} (f : Fn) (m : M A) : M A := λ st,
  let o := m st in
  mkOut (result o) (final o)
        (Enter f :: trace o ++
         match result o with
         | Panic _ => []
         | r => [Return_ f (err_of r)]
         end).

Definition modify_stats (f : Stats → Stats) : M unit := λ st,
  mkOut (Ok tt) (mkSt (world st) (f (stats st)) (ev st)) [].

Definition modify_ev (f : Reparent → Reparent) : M unit := λ st,
  mkOut (Ok tt) (mkSt (world st) (stats st) (f (ev st))) [].

(** [for _, x := range l { f(x) }] *)
Fixpoint for_each {A} (f : A → M unit) (l : list A) : M unit :=
  match l with
  | [] => ret tt
  | x :: l' => f x;; for_each f l'
  end.

(** The goroutines of a fan-out, run to completion one after the other in
    the order the scheduler gave; [vars] are the variables they share. *)
Fixpoint run_goroutines {G V} (body : G → V → M V) (queue : list G) (vars : V) : M V :=
  match queue with
  | [] => ret vars
  | g :: rest => vars' <- body g vars;; run_goroutines body rest vars'
  end.

(** topoproto.TabletAliasEqual is proto.Equal on the two aliases. *)
Definition TabletAliasEqual (a b : TabletAlias) : bool := bool_decide (a = b).

(** ** EmergencyReparenter *)

Definition getLockAction (newPrimaryAlias : option TabletAlias) : string :=
  let action := "EmergencyReparentShard" in
  match newPrimaryAlias with
  | Some a => action +:+ "(" +:+ TabletAliasString a +:+ ")"
  | None => action
  end.

(** checkIfConstraintsSatisfied is used to check whether the constraints for
    ERS are satisfied or not. *)
Definition checkIfConstraintsSatisfied
    (newPrimary : Tablet) (prevPrimary : option Tablet)
    (opts : EmergencyReparentOptions) : option Error :=
  if PreventCrossCellPromotion opts &&
     match prevPrimary with
     | Some prev => bool_decide (Cell (Alias newPrimary) ≠ Cell (Alias prev))
     | None => false
     end
  then Some (Errorf Code_ABORTED
               "elected primary does not satisfy geographic constraint - %s"
               [ArgString (TabletAliasString (Alias newPrimary))])
  else if bool_decide (PromotionRule newPrimary = MustNotPromoteRule)
  then Some (Errorf Code_ABORTED
               "elected primary does not satisfy promotion rule constraint - %s"
               [ArgString (TabletAliasString (Alias newPrimary))])
  else None.

(** The loop of identifyPrimaryCandidate that sorts the candidates into the
    preferred and the neutral ones; [acc] is
    [(preferredCandidates, neutralReplicas)]. *)
Definition classify_candidate
    (acc : list Tablet * list Tablet) (candidate : Tablet) : list Tablet * list Tablet :=
  let promotionRule := PromotionRule candidate in
  let acc1 :=
    if bool_decide (promotionRule = MustPromoteRule) ||
       bool_decide (promotionRule = PreferPromoteRule)
    then (acc.1 ++ [candidate], acc.2) else acc in
  if bool_decide (promotionRule = NeutralPromoteRule)
  then (acc1.1, acc1.2 ++ [candidate]) else acc1.

(** [a], or else [b]: the chain of
    [candidate = ...; if candidate != nil { return candidate, nil }]. *)
Definition or_else (a : option Tablet) (b : option Tablet) : option Tablet :=
  match a with Some c => Some c | None => b end.

(** identifyPrimaryCandidate is used to find a better candidate for ERS
    promotion.  The deferred log line is written when [candidate] is not nil,
    which is on every return without error. *)
Definition identifyPrimaryCandidate
    (newPrimary : Tablet) (prevPrimary : option Tablet)
    (validCandidates : list Tablet) (tabletMap : gmap string TabletInfo)
    (opts : EmergencyReparentOptions) : M Tablet :=
  traced (F_identifyPrimaryCandidate validCandidates) (
    candidate <-
      match NewPrimaryAlias opts with
      | Some alias =>
          (* explicit request to promote a specific tablet *)
          let requestedPrimaryAlias := TabletAliasString alias in
          match tabletMap !! requestedPrimaryAlias with
          | None =>
              throw (Errorf Code_INTERNAL
                "candidate %v not found in the tablet map; this an impossible situation"
                [ArgString requestedPrimaryAlias])
          | Some requestedPrimaryInfo =>
              if existsb (λ validCandidate,
                            TabletAliasEqual (Alias validCandidate) alias)
                         validCandidates
              then ret (TI_Tablet requestedPrimaryInfo)
              else throw (Errorf Code_ABORTED
                     "requested candidate %v is not in valid candidates list"
                     [ArgString requestedPrimaryAlias])
          end
      | None =>
          let lists := fold_left classify_candidate validCandidates ([], []) in
          let preferredCandidates := lists.1 in
          let neutralReplicas := lists.2 in
          let find := findPossibleCandidateFromListWithRestrictions newPrimary prevPrimary in
          let crossCell (l : list Tablet) :=
            if negb (PreventCrossCellPromotion opts)
            then or_else (find l true false) (find l false false)
            else None in
          ret (default newPrimary
            (or_else (find preferredCandidates true true)
            (or_else (find preferredCandidates false true)
            (or_else (crossCell preferredCandidates)
            (or_else (find neutralReplicas true true)
            (or_else (find neutralReplicas false true)
                     (crossCell neutralReplicas)))))))
      end;;
    logf "found better candidate - %v";;
    ret candidate).

(** intermediateCandidateIsIdeal is used to find whether the intermediate
    candidate that ERS chose is also the ideal one or not.  The comparison
    [candidate == newPrimary] is one of pointers. *)
Definition intermediateCandidateIsIdeal
    (newPrimary : Tablet) (prevPrimary : option Tablet)
    (validCandidates : list Tablet) (tabletMap : gmap string TabletInfo)
    (opts : EmergencyReparentOptions) : M bool :=
  traced F_intermediateCandidateIsIdeal (
    candidate <- identifyPrimaryCandidate newPrimary prevPrimary validCandidates tabletMap opts;;
    ret (Nat.eqb (addr candidate) (addr newPrimary))).

(** [s[i]], which panics out of range. *)
Definition index {A} (l : list A) (i : nat) : M A :=
  match l !! i with
  | Some x => ret x
  | None => panic "runtime error: index out of range"
  end.

(** The split brain loop of findMostAdvanced, from index [i] on. *)
Fixpoint check_split_brain
    (winningPrimaryTablet : Tablet) (winningPosition : Position)
    (validTablets : list Tablet) (i : nat) (tabletPositions : list Position) : M unit :=
  match tabletPositions with
  | [] => ret tt
  | position :: rest =>
      if negb (AtLeast winningPosition position)
      then other <- index validTablets i;;
           throw (Errorf Code_FAILED_PRECONDITION
                    "split brain detected between servers - %v and %v"
                    [ArgAlias (Alias winningPrimaryTablet); ArgAlias (Alias other)])
      else check_split_brain winningPrimaryTablet winningPosition validTablets (S i) rest
  end.

(** findMostAdvanced finds the intermediate primary candidate for ERS.  We
    always choose the most advanced one from our valid candidates list. *)
Definition findMostAdvanced
    (prevPrimary : option Tablet) (validCandidates : gmap string Position)
    (tabletMap : gmap string TabletInfo) (opts : EmergencyReparentOptions)
    : M (Tablet * list Tablet) :=
  traced F_findMostAdvanced (
    logf "started finding the intermediate primary candidate";;
    (* convert the valid candidates into a list so that we can use it for sorting *)
    lists <- helper (getValidCandidatesAndPositionsAsList validCandidates tabletMap);;
    let idealCell :=
      match prevPrimary with Some prev => Cell (Alias prev) | None => "" end in
    (* sort the tablets for finding the best intermediate primary in ERS *)
    let sorted := sortTabletsForERS lists.1 lists.2 idealCell in
    match sorted.1 with
    | Some err => throw err
    | None =>
        let validTablets := sorted.2.1 in
        let tabletPositions := sorted.2.2 in
        for_each (λ _, logf "finding intermediate primary - sorted replica: %v") validTablets;;
        (* The first tablet in the sorted list will be the most eligible
           candidate unless explicitly asked for some other tablet *)
        winningPrimaryTablet <- index validTablets 0;;
        winningPosition <- index tabletPositions 0;;
        check_split_brain winningPrimaryTablet winningPosition validTablets 0 tabletPositions;;
        match NewPrimaryAlias opts with
        | Some alias =>
            let requestedPrimaryAlias := TabletAliasString alias in
            match validCandidates !! requestedPrimaryAlias with
            | None =>
                throw (Errorf Code_FAILED_PRECONDITION
                         "requested primary elect %v has errant GTIDs"
                         [ArgString requestedPrimaryAlias])
            | Some pos =>
                if AtLeast pos winningPosition
                then match tabletMap !! requestedPrimaryAlias with
                     | None =>
                         throw (Errorf Code_INTERNAL
                           "candidate %v not found in the tablet map; this an impossible situation"
                           [ArgString requestedPrimaryAlias])
                     | Some requestedPrimaryInfo =>
                         ret (TI_Tablet requestedPrimaryInfo, validTablets)
                     end
                else ret (winningPrimaryTablet, validTablets)
            end
        | None => ret (winningPrimaryTablet, validTablets)
        end
    end).

(** *** reparentReplicas *)

(** The variables that the replica goroutines of reparentReplicas share:
    the slice under [replicaMutex], the error recorder [rec], and whether
    [replSuccessCancel] has been called, that is whether
    [replSuccessCtx.Done()] is closed. *)
Record ReplicaVars := mkVars {
  replicasStartedReplication : list Tablet;
  rec_Errors : list Error;
  replSuccessCtx_Done : bool
}.

Definition rec_RecordError (err : Error) (v : ReplicaVars) : ReplicaVars :=
  mkVars (replicasStartedReplication v) (rec_Errors v ++ [err]) (replSuccessCtx_Done v).

Section reparentReplicas.
Variables (newPrimaryTablet : Tablet)
          (tabletMap : gmap string TabletInfo)
          (statusMap : gmap string StopReplicationStatus)
          (opts : EmergencyReparentOptions)
          (waitForAllReplicas populateReparentJournal : bool).

Definition handlePrimary (now : Z) (alias : string) (tablet : Tablet) : M unit :=
  position <- call (Rpc_MasterPosition tablet) (MasterPosition tablet);;
  if populateReparentJournal
  then logf "populating reparent journal on new primary %v";;
       call_ (Rpc_PopulateReparentJournal tablet)
             (PopulateReparentJournal tablet now (lockAction opts)
                                      (Alias newPrimaryTablet) position)
  else ret tt.

(** One replica goroutine, from its start to [replWg.Done()]. *)
Definition handleReplica (g : string * TabletInfo) (v : ReplicaVars) : M ReplicaVars :=
  let alias := g.1 in
  let ti := g.2 in
  logf "setting new primary on replica %v";;
  match
    match statusMap !! alias with
    | Some status =>
        match ReplicaWasRunning status with
        | inl err =>
            inl (Wrapf err "tablet %v could not determine StopReplicationStatus: %v"
                       [ArgString alias; ArgError err])
        | inr fs => inr fs
        end
    | None => inr false
    end
  with
  | inl err => emit (RecordError err);; ret (rec_RecordError err v)
  | inr forceStart =>
      r <- try_ (call_ (Rpc_SetMaster (TI_Tablet ti) (Alias newPrimaryTablet) forceStart)
                       (SetMaster (TI_Tablet ti) (Alias newPrimaryTablet) 0 "" forceStart));;
      match r with
      | inl err =>
          let err := Wrapf err "tablet %v SetReplicationSource failed: %v"
                           [ArgString alias; ArgError err] in
          emit (RecordError err);;
          ret (rec_RecordError err v)
      | inr _ =>
          let started := replicasStartedReplication v ++ [TI_Tablet ti] in
          (* Signal that at least one goroutine succeeded to
             SetReplicationSource.  We do this only when we do not want to
             wait for all the replicas *)
          ret (mkVars started (rec_Errors v)
                      (if negb waitForAllReplicas then true else replSuccessCtx_Done v))
      end
  end.

(** The tablets the loop over [tabletMap] starts a goroutine for. *)
Definition fanout : list (string * TabletInfo) :=
  filter (λ g, g.1 ≠ TabletAliasString (Alias newPrimaryTablet) ∧
               g.1 ∉ IgnoreReplicas opts)
         (map_to_list tabletMap).

(** The main goroutine blocked in [select]: [queue] are the replica
    goroutines still running.  [allReplicasDoneCtx] is done when none is
    left; [replSuccessCtx] is done when a goroutine has cancelled it. *)
Fixpoint select_wait (queue : list (string * TabletInfo)) (v : ReplicaVars)
    : M (SelectCase * ReplicaVars) :=
  match queue with
  | [] =>
      c <- (if replSuccessCtx_Done v then ask sched_select else ret AllReplicasDone);;
      ret (c, v)
  | g :: rest =>
      wake <- (if replSuccessCtx_Done v then ask sched_wakes else ret false);;
      if wake : bool then ret (ReplSuccessDone, v)
      else v' <- handleReplica g v;; select_wait rest v'
  end.

(** reparentReplicas up to and with its [select]: the number of goroutines
    started, the case taken, and the shared variables at that moment. *)
Definition reparentReplicas_select : M (nat * SelectCase * ReplicaVars) :=
  event_DispatchUpdate "reparenting all tablets";;
  now <- tick time_Now;;
  let numReplicas := length fanout in
  queue <- ask (λ w, sched_order _ w fanout);;
  early <- ask sched_early;;
  v <- run_goroutines handleReplica (take early queue) (mkVars [] [] false);;
  primaryErr <- try_ (handlePrimary now (TabletAliasString (Alias newPrimaryTablet))
                                    newPrimaryTablet);;
  match primaryErr with
  | inl err =>
      logf "primary failed to PopulateReparentJournal";;
      throw (Wrapf err "failed to PopulateReparentJournal on primary: %v" [ArgError err])
  | inr _ =>
      cv <- select_wait (drop early queue) v;;
      emit (Select cv.1);;
      ret (numReplicas, cv.1, cv.2)
  end.

(** What reparentReplicas returns from the case its [select] took.  A nil
    slice is the empty list. *)
Definition reparentReplicas_return
    (numReplicas : nat) (c : SelectCase) (v : ReplicaVars) : M (list Tablet) :=
  match c with
  | ReplSuccessDone =>
      (* At least one replica was able to SetMaster successfully.  Here we
         do not need to return the replicas which started replicating *)
      ret []
  | AllReplicasDone =>
      let errCount := length (rec_Errors v) in
      if bool_decide (numReplicas < errCount) then
        throw (Wrapf (AllErrorRecorder_Error (rec_Errors v))
                 "received more errors (= %d) than replicas (= %d), which should be impossible: %v"
                 [ArgInt (Z.of_nat errCount); ArgInt (Z.of_nat numReplicas);
                  ArgError (AllErrorRecorder_Error (rec_Errors v))])
      else if bool_decide (errCount = numReplicas) then
        throw (Wrapf (AllErrorRecorder_Error (rec_Errors v))
                 "%d replica(s) failed: %v"
                 [ArgInt (Z.of_nat numReplicas);
                  ArgError (AllErrorRecorder_Error (rec_Errors v))])
      else ret (replicasStartedReplication v)
  end.

(** reparentReplicas reparents all the replicas provided and populates the
    reparent journal on the primary.  Also, it returns the replicas which
    started replicating only in the case where we wait for all the replicas. *)
Definition reparentReplicas : M (list Tablet) :=
  traced (F_reparentReplicas newPrimaryTablet waitForAllReplicas populateReparentJournal) (
    s <- reparentReplicas_select;;
    reparentReplicas_return s.1.1 s.1.2 s.2).

End reparentReplicas.

(** promoteIntermediatePrimary promotes the primary candidate that we have,
    but it does not yet set to start accepting writes. *)
Definition promoteIntermediatePrimary
    (newPrimary : Tablet) (tabletMap : gmap string TabletInfo)
    (statusMap : gmap string StopReplicationStatus)
    (opts : EmergencyReparentOptions) : M (list Tablet) :=
  traced F_promoteIntermediatePrimary (
    validCandidatesForImprovement <-
      reparentReplicas newPrimary tabletMap statusMap opts true false;;
    (* also include the current tablet for being considered as part of valid
       candidates for ERS promotion *)
    ret (validCandidatesForImprovement ++ [newPrimary])).

Definition promoteNewPrimary
    (newPrimary : Tablet) (opts : EmergencyReparentOptions)
    (tabletMap : gmap string TabletInfo)
    (statusMap : gmap string StopReplicationStatus) : M unit :=
  traced (F_promoteNewPrimary newPrimary) (
    logf "starting promotion for the new primary - %v";;
    on_error (λ err, Wrapf err
                "primary-elect tablet %v failed to be upgraded to primary: %v"
                [ArgAlias (Alias newPrimary); ArgError err])
             (call (Rpc_PromoteReplica newPrimary) (PromoteReplica newPrimary));;
    (* we now reparent all the replicas to the new primary we have promoted *)
    reparentReplicas newPrimary tabletMap statusMap opts false true;;
    ret tt).

(** *** waitForAllRelayLogsToApply *)

(** Modelled from the spec: concurrency.ErrorGroup.Wait is not among the
    sources.  Section 4.4 gives the discipline, all successes required and a
    single failure fails the step: Wait receives what every goroutine sends
    on the channel, and the recorder it returns holds the errors among them. *)
Definition ErrorGroup_Wait (errCh : list (option Error)) : list Error :=
  omap id errCh.

Section waitForAllRelayLogsToApply.
Variables (validCandidates : gmap string Position)
          (tabletMap : gmap string TabletInfo)
          (statusMap : gmap string StopReplicationStatus)
          (waitReplicasTimeout : Z).

(** The loop over [validCandidates]: the goroutines it starts. *)
Fixpoint start_waiters (candidates : list (string * Position))
    : M (list (string * StopReplicationStatus)) :=
  match candidates with
  | [] => ret []
  | c :: rest =>
      match statusMap !! c.1 with
      | None =>
          logf "EmergencyReparent candidate %v not in replica status map; this means it was not running replication (because it was formerly PRIMARY), so skipping WaitForRelayLogsToApply step for this candidate";;
          start_waiters rest
      | Some status =>
          waiters <- start_waiters rest;;
          ret ((c.1, status) :: waiters)
      end
  end.

(** One waiter goroutine; [errCh] is what has been sent on the channel. *)
Definition relay_log_waiter (g : string * StopReplicationStatus)
    (errCh : list (option Error)) : M (list (option Error)) :=
  r <- try_ (call_ (Call_WaitForRelayLogsToApply g.1)
                   (WaitForRelayLogsToApply (tabletMap !! g.1) g.2));;
  ret (errCh ++ [match r with inl err => Some err | inr _ => None end]).

Definition waitForAllRelayLogsToApply : M unit :=
  traced F_waitForAllRelayLogsToApply (
    waiters <- start_waiters (map_to_list validCandidates);;
    queue <- ask (λ w, sched_order _ w waiters);;
    errCh <- run_goroutines relay_log_waiter queue [];;
    let rec_Errors := ErrorGroup_Wait errCh in
    if bool_decide (length rec_Errors ≠ 0) then
      throw (Wrapf (AllErrorRecorder_Error rec_Errors)
               "could not apply all relay logs within the provided waitReplicasTimeout (%s): %v"
               [ArgInt waitReplicasTimeout; ArgError (AllErrorRecorder_Error rec_Errors)])
    else ret tt).

End waitForAllRelayLogsToApply.

(** *** reparentShardLocked and ReparentShard *)

(** The function deferred in reparentShardLocked once the constraint check
    has failed with [constraintFailure]. *)
Definition undo_deferred (constraintFailure : Error) (err : option Error) : option Error :=
  match err with
  | Some err =>
      Some (Errorf Code_ABORTED
              "error in undoing promotion - %v, constraint failure - %v"
              [ArgError err; ArgError constraintFailure])
  | None => Some constraintFailure
  end.

Definition lost_lock (err : Error) : Error :=
  Wrapf err "lost topology lock, aborting: %v" [ArgError err].

(** reparentShardLocked performs Emergency Reparent Shard operation assuming
    that the shard is already locked. *)
Definition reparentShardLocked
    (keyspace shard : string) (opts : EmergencyReparentOptions) : M unit :=
  traced F_reparentShardLocked (
    logf "will initiate emergency reparent shard in keyspace - %s, shard - %s";;
    modify_stats (λ s, mkStats (Gauge_Add (ersCounter s) 1)
                               (ersSuccessCounter s) (ersFailureCounter s));;
    (* get the shard information from the topology server *)
    shardInfo <- call Topo_GetShard (GetShard keyspace shard);;
    modify_ev (λ e, mkReparent (Some shardInfo) (ev_NewPrimary e));;
    (* get the previous primary according to the topology server *)
    prevPrimary <-
      match PrimaryAlias shardInfo with
      | Some alias =>
          prevPrimaryInfo <- call (Topo_GetTablet alias) (GetTablet alias);;
          ret (Some (TI_Tablet prevPrimaryInfo))
      | None => ret None
      end;;
    (* read all the tablets and there information *)
    event_DispatchUpdate "reading all tablets";;
    tabletMap <-
      on_error (λ err, Wrapf err "failed to get tablet map for %v/%v: %v"
                         [ArgString keyspace; ArgString shard; ArgError err])
               (call Topo_GetTabletMapForShard (GetTabletMapForShard keyspace shard));;
    (* Stop replication on all the tablets and build their status map *)
    maps <-
      on_error (λ err, Wrapf err "failed to stop replication and build status maps: %v"
                         [ArgError err])
               (call Call_StopReplicationAndBuildStatusMaps
                     (StopReplicationAndBuildStatusMaps
                        tabletMap (WaitReplicasTimeout opts) (IgnoreReplicas opts)));;
    let statusMap := maps.1 in
    let primaryStatusMap := maps.2 in
    (* check that we still have the shard lock *)
    on_error lost_lock (call_ Topo_CheckShardLocked (CheckShardLocked keyspace shard));;
    (* find the valid candidates for becoming the primary *)
    validCandidates <- helper (FindValidEmergencyReparentCandidates statusMap primaryStatusMap);;
    (* Now, we restrict the valid candidates list *)
    validCandidates <- helper (restrictValidCandidates validCandidates tabletMap);;
    emit (Restricted (size validCandidates));;
    if bool_decide (size validCandidates = 0) then
      throw (Errorf Code_FAILED_PRECONDITION "no valid candidates for emergency reparent" [])
    else
    (* Wait for all candidates to apply relay logs *)
    waitForAllRelayLogsToApply validCandidates tabletMap statusMap (WaitReplicasTimeout opts);;
    (* find the intermediate replication source that we want to replicate from *)
    found <- findMostAdvanced prevPrimary validCandidates tabletMap opts;;
    let intermediateSource := found.1 in
    let validCandidateTablets := found.2 in
    logf "intermediate primary selected - %v";;
    (* check weather the primary candidate selected is ideal or if it can be improved later *)
    isIdeal <- intermediateCandidateIsIdeal intermediateSource prevPrimary
                 validCandidateTablets tabletMap opts;;
    logf "intermediate primary is ideal - %v";;
    (* Check (again) we still have the topology lock. *)
    on_error lost_lock (call_ Topo_CheckShardLocked (CheckShardLocked keyspace shard));;
    (* initialize the newPrimary with the intermediate primary, override this
       value if it is not the ideal candidate *)
    newPrimary <-
      (if negb isIdeal then
         validReplacementCandidates <-
           promoteIntermediatePrimary intermediateSource tabletMap statusMap opts;;
         (* try to find a better candidate using the list we got back *)
         betterCandidate <-
           identifyPrimaryCandidate intermediateSource prevPrimary
             validReplacementCandidates tabletMap opts;;
         (* if our better candidate is different from our previous candidate,
            then we wait for it to catch up to the intermediate primary *)
         if negb (TabletAliasEqual (Alias betterCandidate) (Alias intermediateSource)) then
           call_ (Call_waitForCatchUp intermediateSource betterCandidate)
                 (waitForCatchUp intermediateSource betterCandidate
                                 (WaitReplicasTimeout opts));;
           ret betterCandidate
         else ret intermediateSource
       else ret intermediateSource);;
    (* now we check if all the constraints are satisfied.  If they are not,
       then we should abort *)
    let constraintFailure := checkIfConstraintsSatisfied newPrimary prevPrimary opts in
    emit (Enter (F_checkIfConstraintsSatisfied newPrimary prevPrimary));;
    emit (Return_ (F_checkIfConstraintsSatisfied newPrimary prevPrimary) constraintFailure);;
    deferred (match constraintFailure with
              | Some failure => undo_deferred failure
              | None => λ err, err
              end) (
      newPrimary <-
        match constraintFailure with
        | Some _ =>
            logf "have to override promotion because of constraint failure - %v";;
            (* we now try to undo are changes.  We can do so by promoting the
               previous primary instead of the new one we selected *)
            match prevPrimary with
            | None =>
                throw (Errorf Code_ABORTED
                  "could not undo promotion, since shard record has no primary information" [])
            | Some prev => ret prev
            end
        | None => ret newPrimary
        end;;
      (* Final step is to promote our primary candidate *)
      promoteNewPrimary newPrimary opts tabletMap statusMap;;
      (* ev.NewPrimary is a deep copy of the tablet record *)
      modify_ev (λ e, mkReparent (ev_ShardInfo e) (Some newPrimary)))).

(** [m], then the deferred functions [k], which see how [m] ended. *)
Definition then_deferred {A B} (m : M A) (k : Result A → M B) : M B := λ st,
  let o := m st in
  let o' := k (result o) (final o) in
  mkOut (result o') (final o') (trace o ++ trace o').

(** ReparentShard performs the EmergencyReparentShard operation on the given
    keyspace and shard.  It returns [(ev, err)].  The results are not named:
    the deferred functions read the local [err], which holds the result of
    reparentShardLocked, or still nil when that call panicked, and what
    [unlock(&err)] writes to it is not returned. *)
Definition ReparentShard
    (keyspace shard : string) (opts : EmergencyReparentOptions)
    : M (option Reparent * option Error) :=
  (* First step is to lock the shard for the given operation *)
  let opts := set_lockAction (getLockAction (NewPrimaryAlias opts)) opts in
  locked <- try_ (call_ (Topo_LockShard (lockAction opts))
                        (LockShard keyspace shard (lockAction opts)));;
  match locked with
  | inl err => ret (None, Some err)
  | inr _ =>
      modify_ev (λ _, mkReparent None None);;
      (* run ERS with shard already locked *)
      then_deferred (reparentShardLocked keyspace shard opts) (λ r,
        let err := err_of r in
        (* dispatch success or failure of ERS *)
        match err with
        | None =>
            modify_stats (λ s, mkStats (ersCounter s)
                                       (Gauge_Add (ersSuccessCounter s) 1)
                                       (ersFailureCounter s));;
            event_DispatchUpdate "finished EmergencyReparentShard"
        | Some e =>
            modify_stats (λ s, mkStats (ersCounter s) (ersSuccessCounter s)
                                       (Gauge_Add (ersFailureCounter s) 1));;
            event_DispatchUpdate ("failed EmergencyReparentShard: " +:+ Error_text e)
        end;;
        (* the deferred unlock-shard function *)
        emit (Topo_unlock err);;
        tick (λ w, (tt, unlock err w));;
        match r with
        | Panic msg => panic msg
        | _ => λ st, mkOut (Ok (Some (ev st), err)) st []
        end)
  end.

End Orchestrator.

Arguments mkOut {C A} result final trace.
Arguments result {C A} o.
Arguments final {C A} o.
Arguments trace {C A} o.

(** ** A scripted cluster

    An instance of the collaborators in which the tablets, their positions
    and the calls that fail are given by a script.  The examples below run
    the orchestrator on it. *)
Module Cluster.

(** A position is the set of change records applied, as a list. *)
Definition Pos : Type := list nat.

Definition at_least (a b : Pos) : bool :=
  forallb (λ x, existsb (Nat.eqb x) a) b.

Record Script := mkScript {
  tablets : list Tablet;
  shard_primary : option TabletAlias;
  positions : list (string * Pos);
  lock_fails : bool;
  master_position_fails : bool;
  set_master_fails : list TabletAlias;
  promote_fails : list TabletAlias
}.

Definition alias_string (a : TabletAlias) : string :=
  Cell a +:+ "-" +:+ pretty (Uid a).

Definition tablet_map (s : Script) : gmap string TabletInfo :=
  list_to_map ((λ t, (alias_string (Alias t), mkTabletInfo t)) <$> tablets s).

Definition unavailable (what : string) : Error :=
  Errorf Code_UNAVAILABLE what [].

Definition find_tablet (s : Script) (a : TabletAlias) : Error + TabletInfo :=
  match tablet_map s !! alias_string a with
  | Some ti => inr ti
  | None => inl (unavailable "node doesn't exist")
  end.

(** Every tablet outside the ignore set stops replication and reports that
    it was running. *)
Definition stop_all (tm : gmap string TabletInfo) (ignore : gset string)
    : gmap string bool * gmap string unit :=
  (list_to_map ((λ g, (g.1, true)) <$>
                filter (λ g : string * TabletInfo, g.1 ∉ ignore) (map_to_list tm)), ∅).

Definition candidates (s : Script) (statusMap : gmap string bool) : gmap string Pos :=
  list_to_map (filter (λ g : string * Pos, is_Some (statusMap !! g.1)) (positions s)).

Fixpoint candidates_as_list (tm : gmap string TabletInfo) (l : list (string * Pos))
    : Error + list Tablet * list Pos :=
  match l with
  | [] => inr ([], [])
  | g :: rest =>
      match tm !! g.1 with
      | None => inl (Errorf Code_INTERNAL
                  "candidate %v not found in the tablet map; this an impossible situation"
                  [ArgString g.1])
      | Some ti =>
          match candidates_as_list tm rest with
          | inl e => inl e
          | inr r => inr (TI_Tablet ti :: r.1, g.2 :: r.2)
          end
      end
  end.

(** Insertion sort, the more advanced position first. *)
Fixpoint insert_by_position (x : Tablet * Pos) (l : list (Tablet * Pos)) : list (Tablet * Pos) :=
  match l with
  | [] => [x]
  | y :: l' => if at_least x.2 y.2 then x :: l else y :: insert_by_position x l'
  end.

Definition sort_by_position (l : list (Tablet * Pos)) : list (Tablet * Pos) :=
  foldr insert_by_position [] l.

Definition sort_tablets (ts : list Tablet) (ps : list Pos) (cell : string)
    : option Error * (list Tablet * list Pos) :=
  if bool_decide (length ts = length ps) then
    let sorted := sort_by_position (zip ts ps) in
    (None, (sorted.*1, sorted.*2))
  else (Some (Errorf Code_INTERNAL "unequal number of tablets and positions" []), (ts, ps)).

(** Tablets that serve queries may be promoted, the others must not. *)
Definition promotion_rule (t : Tablet) : CandidatePromotionRule :=
  match Type_ t with
  | PRIMARY | REPLICA => NeutralPromoteRule
  | _ => MustNotPromoteRule
  end.

Fixpoint find_candidate (newPrimary : Tablet) (prevPrimary : option Tablet)
    (possibleCandidates : list Tablet) (checkEqualPrimary checkSameCell : bool)
    : option Tablet :=
  match possibleCandidates with
  | [] => None
  | candidate :: rest =>
      if checkEqualPrimary && negb (TabletAliasEqual (Alias newPrimary) (Alias candidate))
      then find_candidate newPrimary prevPrimary rest checkEqualPrimary checkSameCell
      else if checkSameCell &&
              match prevPrimary with
              | Some prev => negb (bool_decide (Cell (Alias prev) = Cell (Alias candidate)))
              | None => false
              end
      then find_candidate newPrimary prevPrimary rest checkEqualPrimary checkSameCell
      else Some candidate
  end.

Definition fails (l : list TabletAlias) (t : Tablet) (what : string) : option Error :=
  if bool_decide (Alias t ∈ l) then Some (unavailable what) else None.

Lemma insert_by_position_length x l :
  length (insert_by_position x l) = S (length l).
Proof.
  induction l as [|y l IH]; simpl; [done|].
  destruct (at_least x.2 y.2); simpl; [done|]. by rewrite IH.
Qed.

Lemma sort_by_position_length l : length (sort_by_position l) = length l.
Proof.
  induction l as [|x l IH]; simpl; [done|].
  by rewrite insert_by_position_length, IH.
Qed.

Lemma sort_tablets_length ts ps cell :
  length (sort_tablets ts ps cell).2.1 = length ts ∧
  length (sort_tablets ts ps cell).2.2 = length ps.
Proof.
  unfold sort_tablets. case_bool_decide as Hlen; simpl; [|done].
  rewrite !length_fmap, sort_by_position_length, length_zip_with. lia.
Qed.

#[refine] Instance scripted (s : Script) : Collaborators := {|
  World := unit;
  Position := Pos;
  AtLeast := at_least;
  StopReplicationStatus := bool;
  PrimaryStatus := unit;
  TabletAliasString := alias_string;
  LockShard _ _ _ w := (if lock_fails s then Some (unavailable "lock held") else None, w);
  unlock _ w := w;
  GetShard _ _ w := (inr (mkShardInfo (shard_primary s)), w);
  GetTablet a w := (find_tablet s a, w);
  GetTabletMapForShard _ _ w := (inr (tablet_map s), w);
  CheckShardLocked _ _ w := (None, w);
  MasterPosition t w :=
    (if master_position_fails s then inl (unavailable "no position") else inr "pos", w);
  PopulateReparentJournal _ _ _ _ _ w := (None, w);
  SetMaster t _ _ _ _ w := (fails (set_master_fails s) t "replica unreachable", w);
  PromoteReplica t w :=
    (match fails (promote_fails s) t "primary unreachable" with
     | Some e => inl e
     | None => inr "pos"
     end, w);
  StopReplicationAndBuildStatusMaps tm _ ignore w := (inr (stop_all tm ignore), w);
  FindValidEmergencyReparentCandidates statusMap _ := inr (candidates s statusMap);
  restrictValidCandidates vc _ := inr vc;
  WaitForRelayLogsToApply _ _ w := (None, w);
  getValidCandidatesAndPositionsAsList vc tm := candidates_as_list tm (map_to_list vc);
  sortTabletsForERS := sort_tablets;
  ReplicaWasRunning status := inr status;
  PromotionRule := promotion_rule;
  findPossibleCandidateFromListWithRestrictions := find_candidate;
  waitForCatchUp _ _ _ w := (None, w);
  AllErrorRecorder_Error errs := Errorf Code_UNKNOWN "%v" (ArgError <$> errs);
  Error_text _ := "error";
  time_Now w := (0%Z, w);
  sched_order _ _ l := l;
  sched_early _ := 0;
  sched_wakes _ := true;
  sched_select _ := ReplSuccessDone
|}.
Proof.
  - apply sort_tablets_length.
  - done.
Defined.

End Cluster.

(** ** Reasoning about runs *)

Section Runs.
Context `{C : Collaborators}.

(** [wp m st Q]: the run of [m] from [st] ends in a result, a state and a
    trace that satisfy [Q].  Every run ends: [M] is a total function. *)
Definition wp {A} (m : M A) (st : St) (Q : Result A → St → list Event → Prop) : Prop :=
  Q (result (m st)) (final (m st)) (trace (m st)).

Lemma wp_conseq {A} (m : M A) st (Q Q' : Result A → St → list Event → Prop) :
  wp m st Q' → (∀ r s t, Q' r s t → Q r s t) → wp m st Q.
Proof. unfold wp. auto. Qed.

Lemma wp_ret {A} (a : A) st Q : Q (Ok a) st [] → wp (ret a) st Q.
Proof. done. Qed.

Lemma wp_throw {A} e st (Q : Result A → _) : Q (Err e) st [] → wp (throw e) st Q.
Proof. done. Qed.

Lemma wp_panic {A} msg st (Q : Result A → _) : Q (Panic msg) st [] → wp (panic msg) st Q.
Proof. done. Qed.

Lemma wp_emit e st Q : Q (Ok tt) st [e] → wp (emit e) st Q.
Proof. done. Qed.

Lemma wp_bind {A B} (m : M A) (k : A → M B) st Q :
  wp m st (λ r s t,
    match r with
    | Ok a => wp (k a) s (λ r' s' t', Q r' s' (t ++ t'))
    | Err e => Q (Err e) s t
    | Panic msg => Q (Panic msg) s t
    end) →
  wp (bind m k) st Q.
Proof. unfold wp, bind. by destruct (result (m st)). Qed.

Lemma wp_call {A} e (f : World → (Error + A) * World) st Q :
  (∀ w, (∀ err, Q (Err err) (set_world w st) [e]) ∧
        (∀ a, Q (Ok a) (set_world w st) [e])) →
  wp (call e f) st Q.
Proof.
  intros H. unfold wp, call. simpl.
  destruct (H (f (world st)).2) as [H1 H2]. by destruct (f (world st)).1.
Qed.

Lemma wp_call_ e (f : World → option Error * World) st Q :
  (∀ w, (∀ err, Q (Err err) (set_world w st) [e]) ∧ Q (Ok tt) (set_world w st) [e]) →
  wp (call_ e f) st Q.
Proof.
  intros H. unfold wp, call_. simpl.
  destruct (H (f (world st)).2) as [H1 H2]. by destruct (f (world st)).1.
Qed.

Lemma wp_helper {A} (r : Error + A) st Q :
  (∀ err, Q (Err err) st []) → (∀ a, Q (Ok a) st []) → wp (helper r) st Q.
Proof. intros H1 H2. destruct r; [apply H1|apply H2]. Qed.

Lemma wp_ask {A} (f : World → A) st Q : (∀ a, Q (Ok a) st []) → wp (ask f) st Q.
Proof. intros H. apply H. Qed.

Lemma wp_tick {A} (f : World → A * World) st Q :
  (∀ a w, Q (Ok a) (set_world w st) []) → wp (tick f) st Q.
Proof. intros H. apply H. Qed.

Lemma wp_try {A} (m : M A) st Q :
  wp m st (λ r s t,
    match r with
    | Ok a => Q (Ok (inr a)) s t
    | Err e => Q (Ok (inl e)) s t
    | Panic msg => Q (Panic msg) s t
    end) →
  wp (try_ m) st Q.
Proof. unfold wp, try_. simpl. by destruct (result (m st)). Qed.

Lemma wp_on_error {A} f (m : M A) st Q :
  wp m st (λ r s t, match r with Err e => Q (Err (f e)) s t | _ => Q r s t end) →
  wp (on_error f m) st Q.
Proof. unfold wp, on_error. simpl. by destruct (result (m st)). Qed.

Lemma wp_deferred f (m : M unit) st Q :
  wp m st (λ r s t,
    match r with
    | Panic msg => Q (Panic msg) s t
    | _ => Q (match f (err_of r) with Some e => Err e | None => Ok tt end) s t
    end) →
  wp (deferred f m) st Q.
Proof. unfold wp, deferred. simpl. by destruct (result (m st)). Qed.

Lemma wp_traced {A} fn (m : M A) st Q :
  wp m st (λ r s t,
    Q r s (Enter fn :: t ++
           match r with Panic _ => [] | _ => [Return_ fn (err_of r)] end)) →
  wp (traced fn m) st Q.
Proof. unfold wp, traced. simpl. by destruct (result (m st)). Qed.

Lemma wp_modify_stats f st Q :
  Q (Ok tt) (mkSt (world st) (f (stats st)) (ev st)) [] → wp (modify_stats f) st Q.
Proof. done. Qed.

Lemma wp_modify_ev f st Q :
  Q (Ok tt) (mkSt (world st) (stats st) (f (ev st))) [] → wp (modify_ev f) st Q.
Proof. done. Qed.

(** The variables of the package and of the operation that a call to a
    collaborator leaves alone. *)
Definition same_vars (st s : St) : Prop := stats s = stats st ∧ ev s = ev st.

Lemma same_vars_refl st : same_vars st st.
Proof. done. Qed.

Lemma same_vars_world w st s : same_vars (set_world w st) s → same_vars st s.
Proof. done. Qed.

Lemma same_vars_trans a b c : same_vars a b → same_vars b c → same_vars a c.
Proof. unfold same_vars. intros [-> ->] [-> ->]. done. Qed.

End Runs.

Arguments wp : simpl never.

(** One step of a run. *)
Ltac wp_step :=
  lazymatch goal with
  | |- wp (bind _ _) _ _ => apply wp_bind
  | |- wp (ret _) _ _ => apply wp_ret
  | |- wp (throw _) _ _ => apply wp_throw
  | |- wp (panic _) _ _ => apply wp_panic
  | |- wp (emit _) _ _ => apply wp_emit
  | |- wp (logf _) _ _ => apply wp_emit
  | |- wp (event_DispatchUpdate _) _ _ => apply wp_emit
  | |- wp (call _ _) _ _ => apply wp_call; intros ?w; split; [intros ?err|intros ?a]
  | |- wp (call_ _ _) _ _ => apply wp_call_; intros ?w; split; [intros ?err|]
  | |- wp (helper _) _ _ => apply wp_helper; [intros ?err|intros ?a]
  | |- wp (ask _) _ _ => apply wp_ask; intros ?a
  | |- wp (tick _) _ _ => apply wp_tick; intros ?a ?w
  | |- wp (try_ _) _ _ => apply wp_try
  | |- wp (on_error _ _) _ _ => apply wp_on_error
  | |- wp (deferred _ _) _ _ => apply wp_deferred
  | |- wp (traced _ _) _ _ => apply wp_traced
  | |- wp (modify_stats _) _ _ => apply wp_modify_stats
  | |- wp (modify_ev _) _ _ => apply wp_modify_ev
  | |- wp (index _ _) _ _ => unfold index
  | |- wp (match ?x with _ => _ end) _ _ => destruct x eqn:?
  | |- wp (if ?x then _ else _) _ _ => destruct x eqn:?
  | |- wp (let _ := _ in _) _ _ => cbv zeta
  end; cbv beta iota.
(** ** What each part of the orchestrator does *)

(** Closing a goal [Forall P t] for a trace [t] built from events and from
    the traces of parts already described by a [Forall]. *)
Ltac trace_forall :=
  repeat first
    [ apply Forall_nil_2
    | apply Forall_cons_2; [simpl; try done|]
    | apply Forall_app_2
    | assumption
    | match goal with
      | H : Forall _ ?t |- Forall _ ?t =>
          refine (Forall_impl _ _ _ H _); intros []; simpl; try done
      end ].

(** Using the description [lem] of a part in a run. *)
Tactic Notation "wp_use" uconstr(lem) :=
  eapply wp_conseq; [eapply lem|cbv beta; intros ?r ?s ?t ?H].

Section Steps.
Context `{C : Collaborators}.

Lemma for_each_log {A} fmt (l : list A) st :
  for_each (λ _, logf fmt) l st = mkOut (Ok tt) st (replicate (length l) (Log fmt)).
Proof.
  revert st. induction l as [|x l IH]; intros st; simpl; [done|].
  unfold bind. simpl. by rewrite IH.
Qed.

Lemma wp_for_each_log {A} fmt (l : list A) st Q :
  Q (Ok tt) st (replicate (length l) (Log fmt)) → wp (for_each (λ _, logf fmt) l) st Q.
Proof. unfold wp. by rewrite for_each_log. Qed.

Lemma Forall_replicate_log (P : Event → Prop) fmt n :
  P (Log fmt) → Forall P (replicate n (Log fmt)).
Proof. intros H. apply Forall_replicate. done. Qed.

(** *** findMostAdvanced *)

Definition ev_find (e : Event) : Prop :=
  match e with
  | Log _ => True
  | Enter f | Return_ f _ => f = F_findMostAdvanced
  | _ => False
  end.

Lemma check_split_brain_spec w p ts i ps st :
  wp (check_split_brain w p ts i ps) st (λ r s t, s = st ∧ t = []).
Proof.
  revert i. induction ps as [|q ps IH]; intros i; simpl.
  - by apply wp_ret.
  - destruct (AtLeast p q); simpl; [apply IH|].
    wp_step. wp_step. wp_step; [|done]. by wp_step.
Qed.

(** findMostAdvanced reads no state and calls no tablet. *)
Lemma findMostAdvanced_spec prev vc tm opts st :
  wp (findMostAdvanced prev vc tm opts) st (λ r s t, s = st ∧ Forall ev_find t).
Proof.
  unfold findMostAdvanced.
  repeat wp_step; try (split; [done|trace_forall]).
  apply wp_for_each_log.
  repeat wp_step; try (split; [done|trace_forall; by apply Forall_replicate_log]).
  all: wp_use check_split_brain_spec; destruct H as [-> ->].
  all: destruct r; repeat wp_step; try (split; [done|trace_forall; by apply Forall_replicate_log]).
Qed.

(** *** identifyPrimaryCandidate *)

(** The trace of a call of identifyPrimaryCandidate that ends in [r]. *)
Definition identify_trace (l : list Tablet) (r : Result Tablet) : list Event :=
  Enter (F_identifyPrimaryCandidate l) ::
  match r with Ok _ => [Log "found better candidate - %v"] | _ => [] end ++
  [Return_ (F_identifyPrimaryCandidate l) (err_of r)].

Definition returns {A} (r : Result A) : Prop :=
  match r with Panic _ => False | _ => True end.

Lemma identifyPrimaryCandidate_spec np prev l tm opts st :
  wp (identifyPrimaryCandidate np prev l tm opts) st
     (λ r s t, s = st ∧ returns r ∧ t = identify_trace l r).
Proof.
  unfold identifyPrimaryCandidate. repeat wp_step; done.
Qed.

Lemma intermediateCandidateIsIdeal_spec np prev l tm opts st :
  wp (intermediateCandidateIsIdeal np prev l tm opts) st
     (λ r s t, s = st ∧ returns r ∧ ∃ r' : Result Tablet,
        returns r' ∧ err_of r' = err_of r ∧
        t = Enter F_intermediateCandidateIsIdeal :: identify_trace l r' ++
            [Return_ F_intermediateCandidateIsIdeal (err_of r)]).
Proof.
  unfold intermediateCandidateIsIdeal. wp_step. wp_step.
  wp_use identifyPrimaryCandidate_spec. destruct H as (-> & Hr & ->).
  destruct r; [wp_step| |done]; (split; [done|split; [done|]]).
  - by exists (Ok a).
  - exists (Err e). done.
Qed.

(** *** reparentReplicas *)

Definition ev_goroutine (e : Event) : Prop :=
  match e with
  | Log _ | Rpc_SetMaster _ _ _ | RecordError _ => True
  | _ => False
  end.

(** The events of a call of reparentReplicas. *)
Definition ev_replicas (np : Tablet) (wait populate : bool) (e : Event) : Prop :=
  match e with
  | Enter f | Return_ f _ => f = F_reparentReplicas np wait populate
  | DispatchUpdate _ | Log _ | Rpc_SetMaster _ _ _ | RecordError _
  | Rpc_MasterPosition _ | Rpc_PopulateReparentJournal _ | Select _ => True
  | _ => False
  end.

Lemma handleReplica_spec np sm wait g v st :
  wp (handleReplica np sm wait g v) st
     (λ r s t, same_vars st s ∧ Forall ev_goroutine t ∧ ∃ v', r = Ok v').
Proof.
  unfold handleReplica. repeat wp_step; (split; [done|split; [trace_forall|eauto]]).
Qed.

Lemma run_goroutines_handleReplica_spec np sm wait q v st :
  wp (run_goroutines (handleReplica np sm wait) q v) st
     (λ r s t, same_vars st s ∧ Forall ev_goroutine t ∧ ∃ v', r = Ok v').
Proof.
  revert v st. induction q as [|g q IH]; intros v st; simpl.
  - wp_step. split; [done|]. split; [trace_forall|eauto].
  - wp_step. wp_use handleReplica_spec. destruct H as (Hs & Ht & v' & ->).
    wp_use IH. destruct H as (Hs' & Ht' & v'' & ->).
    split; [by eapply same_vars_trans|]. split; [trace_forall|eauto].
Qed.

Lemma select_wait_spec np sm wait q v st :
  wp (select_wait np sm wait q v) st
     (λ r s t, same_vars st s ∧ Forall ev_goroutine t ∧ ∃ cv, r = Ok cv).
Proof.
  revert v st. induction q as [|g q IH]; intros v st; simpl.
  - repeat wp_step; (split; [done|split; [trace_forall|eauto]]).
  - wp_step.
    assert (∀ wake : bool,
      wp (if wake then ret (ReplSuccessDone, v)
          else bind (handleReplica np sm wait g v) (λ v', select_wait np sm wait q v')) st
         (λ r s t, same_vars st s ∧ Forall ev_goroutine t ∧ ∃ cv, r = Ok cv)) as Hwake.
    { intros [|].
      - wp_step. split; [done|]. split; [trace_forall|eauto].
      - wp_step. wp_use handleReplica_spec. destruct H as (Hs & Ht & v' & ->).
        wp_use IH. destruct H as (Hs' & Ht' & cv & ->).
        split; [by eapply same_vars_trans|]. split; [trace_forall|eauto]. }
    destruct (replSuccessCtx_Done v); wp_step; [exact (Hwake a)|exact (Hwake false)].
Qed.

Definition ev_primary (e : Event) : Prop :=
  match e with
  | Log _ | Rpc_MasterPosition _ | Rpc_PopulateReparentJournal _ => True
  | _ => False
  end.

Lemma handlePrimary_spec np opts populate now alias tablet st :
  wp (handlePrimary np opts populate now alias tablet) st
     (λ r s t, same_vars st s ∧ returns r ∧ Forall ev_primary t).
Proof.
  unfold handlePrimary. repeat wp_step; (split; [done|split; [done|trace_forall]]).
Qed.

Definition ev_select (e : Event) : Prop :=
  match e with
  | DispatchUpdate _ | Log _ | Rpc_SetMaster _ _ _ | RecordError _
  | Rpc_MasterPosition _ | Rpc_PopulateReparentJournal _ | Select _ => True
  | _ => False
  end.

Lemma reparentReplicas_select_spec np tm sm opts wait populate st :
  wp (reparentReplicas_select np tm sm opts wait populate) st
     (λ r s t, same_vars st s ∧ returns r ∧ Forall ev_select t).
Proof.
  unfold reparentReplicas_select. repeat wp_step.
  wp_use run_goroutines_handleReplica_spec. destruct H as (Hs & Ht & v' & ->).
  wp_step. wp_step. wp_use handlePrimary_spec. destruct H as (Hs' & Hr & Ht').
  assert (same_vars st s0) by (eapply same_vars_trans; [|done]; done).
  destruct r; [|repeat wp_step; (split; [done|split; [done|trace_forall]])|done].
  wp_step. wp_use select_wait_spec. destruct H0 as (Hs'' & Ht'' & cv & ->).
  repeat wp_step. split; [by eapply same_vars_trans|]. split; [done|trace_forall].
Qed.

Lemma reparentReplicas_return_spec n c v st :
  wp (reparentReplicas_return n c v) st (λ r s t, s = st ∧ returns r ∧ t = []).
Proof. unfold reparentReplicas_return. repeat wp_step; done. Qed.

Lemma reparentReplicas_spec np tm sm opts wait populate st :
  wp (reparentReplicas np tm sm opts wait populate) st
     (λ r s t, same_vars st s ∧ returns r ∧
        Forall (ev_replicas np wait populate) t ∧
        Enter (F_reparentReplicas np wait populate) ∈ t ∧
        (∀ l, r = Ok l → Return_ (F_reparentReplicas np wait populate) None ∈ t)).
Proof.
  unfold reparentReplicas. wp_step. wp_step.
  wp_use reparentReplicas_select_spec. destruct H as (Hs & Hr & Ht).
  destruct r; [| |done].
  - wp_use reparentReplicas_return_spec. destruct H as (-> & Hr' & ->).
    split; [done|]. split; [done|]. split; [destruct r; trace_forall|].
    split; [set_solver|]. intros l ->. set_solver.
  - split; [done|]. split; [done|]. split; [trace_forall|].
    split; [set_solver|]. done.
Qed.

(** *** promoteIntermediatePrimary and promoteNewPrimary *)

Definition ev_intermediate (np : Tablet) (e : Event) : Prop :=
  match e with
  | Enter f | Return_ f _ =>
      f = F_promoteIntermediatePrimary ∨ f = F_reparentReplicas np true false
  | DispatchUpdate _ | Log _ | Rpc_SetMaster _ _ _ | RecordError _
  | Rpc_MasterPosition _ | Rpc_PopulateReparentJournal _ | Select _ => True
  | _ => False
  end.

Lemma promoteIntermediatePrimary_spec np tm sm opts st :
  wp (promoteIntermediatePrimary np tm sm opts) st
     (λ r s t, same_vars st s ∧ returns r ∧ Forall (ev_intermediate np) t ∧
        (∀ l, r = Ok l →
           Enter (F_reparentReplicas np true false) ∈ t ∧
           Return_ (F_reparentReplicas np true false) None ∈ t)).
Proof.
  unfold promoteIntermediatePrimary. wp_step. wp_step.
  wp_use reparentReplicas_spec. destruct H as (Hs & Hr & Ht & Hin & Hout).
  destruct r; [wp_step| |done].
  - split; [done|]. split; [done|]. split.
    + trace_forall; auto.
    + intros _ _. specialize (Hout _ eq_refl). set_solver.
  - split; [done|]. split; [done|]. split; [trace_forall; auto|done].
Qed.

(** The events of a call of promoteNewPrimary, its entry and return apart. *)
Definition ev_promote (np : Tablet) (e : Event) : Prop :=
  match e with
  | Enter f | Return_ f _ => f = F_reparentReplicas np false true
  | Rpc_PromoteReplica t => t = np
  | DispatchUpdate _ | Log _ | Rpc_SetMaster _ _ _ | RecordError _
  | Rpc_MasterPosition _ | Rpc_PopulateReparentJournal _ | Select _ => True
  | _ => False
  end.

Lemma promoteNewPrimary_spec np opts tm sm st :
  wp (promoteNewPrimary np opts tm sm) st
     (λ r s t, same_vars st s ∧ returns r ∧ ∃ t',
        t = Enter (F_promoteNewPrimary np) :: t' ++
            [Return_ (F_promoteNewPrimary np) (err_of r)] ∧
        Forall (ev_promote np) t' ∧
        (r = Ok tt → Rpc_PromoteReplica np ∈ t')).
Proof.
  unfold promoteNewPrimary. do 6 wp_step.
  - split; [done|]. split; [done|]. eexists. split; [done|].
    split; [trace_forall|done].
  - wp_step. wp_use reparentReplicas_spec. destruct H as (Hs & Hr & Ht & _).
    destruct r; [wp_step| |done]; (split; [done|split; [done|]]);
      (eexists; split; [done|]); (split; [trace_forall|]); [set_solver|done].
Qed.

(** *** waitForAllRelayLogsToApply *)

Definition ev_relay (e : Event) : Prop :=
  match e with
  | Log _ | Call_WaitForRelayLogsToApply _ => True
  | Enter f | Return_ f _ => f = F_waitForAllRelayLogsToApply
  | _ => False
  end.

Lemma start_waiters_spec sm l st :
  wp (start_waiters sm l) st (λ r s t, s = st ∧ returns r ∧ Forall ev_relay t).
Proof.
  induction l as [|c l IH]; simpl.
  - by wp_step.
  - destruct (sm !! c.1).
    + wp_step. wp_use IH. destruct H as (-> & Hr & Ht).
      destruct r; [wp_step| |done]; (split; [done|split; [done|trace_forall]]).
    + wp_step. wp_step. wp_use IH. destruct H as (-> & Hr & Ht).
      split; [done|]. split; [done|trace_forall].
Qed.

Lemma relay_log_waiters_spec tm q errCh st :
  wp (run_goroutines (relay_log_waiter tm) q errCh) st
     (λ r s t, same_vars st s ∧ returns r ∧ Forall ev_relay t).
Proof.
  revert errCh st. induction q as [|g q IH]; intros errCh st; simpl.
  - by wp_step.
  - unfold relay_log_waiter at 1. do 4 wp_step.
    all: wp_step; wp_use IH; destruct H as (Hs & Hr & Ht).
    all: split; [done|]; split; [done|trace_forall].
Qed.

Lemma waitForAllRelayLogsToApply_spec vc tm sm timeout st :
  wp (waitForAllRelayLogsToApply vc tm sm timeout) st
     (λ r s t, same_vars st s ∧ returns r ∧ Forall ev_relay t).
Proof.
  unfold waitForAllRelayLogsToApply. wp_step. wp_step.
  wp_use start_waiters_spec. destruct H as (-> & Hr & Ht).
  destruct r; [| |done]; [|split; [done|split; [done|trace_forall]]].
  wp_step. wp_step. wp_step.
  wp_use relay_log_waiters_spec. destruct H as (Hs & Hr' & Ht').
  destruct r; [| |done]; [|split; [done|split; [done|trace_forall]]].
  repeat wp_step; (split; [done|split; [done|trace_forall]]).
Qed.

End Steps.
(** ** Walking through reparentShardLocked *)

(** Using the descriptions of the parts in a run of the orchestrator, and
    splitting on how the part ended. *)
Ltac wp_part :=
  lazymatch goal with
  | |- wp (waitForAllRelayLogsToApply _ _ _ _) _ _ =>
      wp_use waitForAllRelayLogsToApply_spec
  | |- wp (findMostAdvanced _ _ _ _) _ _ => wp_use findMostAdvanced_spec
  | |- wp (intermediateCandidateIsIdeal _ _ _ _ _) _ _ =>
      wp_use intermediateCandidateIsIdeal_spec
  | |- wp (promoteIntermediatePrimary _ _ _ _) _ _ =>
      wp_use promoteIntermediatePrimary_spec
  | |- wp (identifyPrimaryCandidate _ _ _ _ _) _ _ =>
      wp_use identifyPrimaryCandidate_spec
  | |- wp (promoteNewPrimary _ _ _ _) _ _ => wp_use promoteNewPrimary_spec
  end;
  repeat first
    [ progress destruct_and?
    | match goal with H : ∃ _, _ |- _ => destruct H end ];
  subst;
  try lazymatch goal with
  | |- match ?r with _ => _ end => destruct r as [?a| ?e| ?msg]
  end;
  try lazymatch goal with
  | H : returns (Panic _) |- _ => destruct H
  end.

Ltac wp_walk := repeat first [wp_step | wp_part].

(** Finding an event in a trace. *)
Ltac trace_in :=
  solve [ eassumption
        | apply list_elem_of_here
        | apply list_elem_of_further; trace_in
        | apply elem_of_app; left; trace_in
        | apply elem_of_app; right; trace_in ].

(** Taking apart a hypothesis [H : e ∈ t] for a trace [t] built from events
    and from the traces of parts described by a [Forall]. *)
Ltac trace_elim H :=
  lazymatch type of H with
  | _ ∈ _ ++ _ => apply elem_of_app in H; destruct H as [H|H]; trace_elim H
  | _ ∈ _ :: _ =>
      apply elem_of_cons in H; destruct H as [H|H]; [try discriminate H|trace_elim H]
  | _ ∈ [] => apply elem_of_nil in H; destruct H
  | _ ∈ match ?r with _ => _ end => destruct r; trace_elim H
  | _ ∈ identify_trace _ _ => unfold identify_trace in H; trace_elim H
  | ?e ∈ ?t =>
      try match goal with
          | F : Forall _ t |- _ =>
              apply (proj1 (Forall_forall _ _) F) in H; simpl in H;
              try (exfalso; clear -H; intuition discriminate)
          end
  end.

Section Walk.
Context `{C : Collaborators}.

(** The steps that follow the restriction of the candidates: the wait for
    the relay logs, the selections, the reparents and the promotion. *)
Definition later_step (e : Event) : Prop :=
  match e with
  | Call_WaitForRelayLogsToApply _ | Call_waitForCatchUp _ _
  | Rpc_MasterPosition _ | Rpc_PopulateReparentJournal _
  | Rpc_SetMaster _ _ _ | Rpc_PromoteReplica _ | RecordError _ | Select _ => True
  | Enter f | Return_ f _ => f ≠ F_reparentShardLocked
  | _ => False
  end.

Definition no_valid_candidates : Error :=
  Errorf Code_FAILED_PRECONDITION "no valid candidates for emergency reparent" [].

Lemma reparentShardLocked_no_candidates ks sh opts st :
  wp (reparentShardLocked ks sh opts) st (λ r s t,
    Restricted 0 ∈ t →
    r = Err no_valid_candidates ∧ Forall (λ e, ¬ later_step e) t).
Proof.
  unfold reparentShardLocked.
  wp_walk.
  all: intros Hin.
  all: try (exfalso; trace_elim Hin;
            match goal with
            | Hb : bool_decide _ = false |- _ =>
                apply bool_decide_eq_false in Hb; congruence
            end).
  all: split; [done|]; simpl; repeat (apply Forall_cons_2; [simpl; naive_solver|]).
  all: apply Forall_nil_2.
Qed.

(** reparentShardLocked counts the run and leaves the two other gauges
    alone. *)
Lemma reparentShardLocked_stats ks sh opts st :
  wp (reparentShardLocked ks sh opts) st (λ r s t,
    ersCounter (stats s) = Gauge_Add (ersCounter (stats st)) 1 ∧
    ersSuccessCounter (stats s) = ersSuccessCounter (stats st) ∧
    ersFailureCounter (stats s) = ersFailureCounter (stats st)).
Proof.
  unfold reparentShardLocked. wp_walk.
  all: unfold same_vars in *; simpl in *; destruct_and?.
  all: repeat match goal with H : stats _ = _ |- _ => rewrite H; clear H end.
  all: done.
Qed.

(** The error that reparentShardLocked returns once the constraint check
    has failed with [failure] and the promotion of the previous primary has
    ended in [undo]. *)
Definition could_not_undo : Error :=
  Errorf Code_ABORTED
    "could not undo promotion, since shard record has no primary information" [].

Definition undo_failed (err failure : Error) : Error :=
  Errorf Code_ABORTED "error in undoing promotion - %v, constraint failure - %v"
         [ArgError err; ArgError failure].

Lemma reparentShardLocked_constraints ks sh opts st :
  wp (reparentShardLocked ks sh opts) st (λ r s t,
    (∀ np prev res,
       Return_ (F_checkIfConstraintsSatisfied np prev) res ∈ t →
       res = checkIfConstraintsSatisfied np prev opts ∧
       match res, prev with
       | None, _ =>
           r = Ok tt → ev_NewPrimary (ev s) = Some np ∧ Rpc_PromoteReplica np ∈ t
       | Some failure, None =>
           r = Err (undo_failed could_not_undo failure) ∧
           ∀ x, (Rpc_PromoteReplica x ∉ t) ∧ (Enter (F_promoteNewPrimary x) ∉ t)
       | Some failure, Some prev =>
           ∃ undo,
             Enter (F_promoteNewPrimary prev) ∈ t ∧
             Return_ (F_promoteNewPrimary prev) undo ∈ t ∧
             (∀ x undo', Return_ (F_promoteNewPrimary x) undo' ∈ t →
                         x = prev ∧ undo' = undo) ∧
             r = Err (match undo with
                      | None => failure
                      | Some err => undo_failed err failure
                      end)
       end) ∧
    (r = Ok tt →
     ∃ np prev, Return_ (F_checkIfConstraintsSatisfied np prev) None ∈ t)).
Proof.
  unfold reparentShardLocked. wp_walk.
  all: (split; [intros np' prev' res Hin|intros Hok; try discriminate Hok]).
  all: try (exfalso; trace_elim Hin; fail).
  all: try (trace_elim Hin; simplify_eq).
  all: repeat match goal with
       | a : () |- _ => destruct a
       | H : Ok () = Ok () → _ |- _ => specialize (H eq_refl)
       end.
  all: simpl.
  all: try (split; [done|]).
  all: try (intros Hok; first [discriminate Hok|split; [done|trace_in]]).
  all: try (eexists _, _; trace_in).
  all: try (eexists; split; [trace_in|]; split; [trace_in|]; split; [|done];
            intros y undo' Hy; trace_elim Hy; by simplify_eq).
  all: try (split; [done|]; intros y; split; intros Hy; trace_elim Hy; by simplify_eq).
Qed.
End Walk.
(** ** The order of the selections and the intermediate reparent *)

Section Order.
Context `{C : Collaborators}.

Definition is_identify (e : Event) : Prop :=
  match e with Enter (F_identifyPrimaryCandidate _) => True | _ => False end.

(** The events so far end with the entry into intermediateCandidateIsIdeal:
    the call that follows is the one that function makes. *)
Definition in_ideal_check (pre : list Event) : Prop :=
  last pre = Some (Enter F_intermediateCandidateIsIdeal).

(** The events so far hold a call of reparentReplicas that waited for all
    the replicas, wrote no journal, and returned without error. *)
Definition reparented_to_intermediate (pre : list Event) : Prop :=
  ∃ src, Enter (F_reparentReplicas src true false) ∈ pre ∧
         Return_ (F_reparentReplicas src true false) None ∈ pre.

(** Every call of identifyPrimaryCandidate in [t], with [pre] before [t]. *)
Fixpoint selections_ordered (pre t : list Event) : Prop :=
  match t with
  | [] => True
  | e :: t' =>
      (is_identify e → in_ideal_check pre ∨ reparented_to_intermediate pre) ∧
      selections_ordered (pre ++ [e]) t'
  end.

Lemma selections_ordered_split pre t t1 t2 l :
  selections_ordered pre t →
  t = t1 ++ Enter (F_identifyPrimaryCandidate l) :: t2 →
  in_ideal_check (pre ++ t1) ∨ reparented_to_intermediate (pre ++ t1).
Proof.
  revert pre t1. induction t as [|e t IH]; intros pre t1 Hord Heq.
  - by destruct t1.
  - destruct Hord as [Hhere Hrest].
    destruct t1 as [|x t1]; simpl in Heq; simplify_eq.
    + rewrite app_nil_r. by apply Hhere.
    + specialize (IH _ _ Hrest eq_refl). by rewrite <- app_assoc in IH.
Qed.

Lemma selections_ordered_app pre u t :
  selections_ordered pre u → selections_ordered (pre ++ u) t →
  selections_ordered pre (u ++ t).
Proof.
  revert pre. induction u as [|e u IH]; intros pre Hu Ht; simpl.
  - by rewrite app_nil_r in Ht.
  - destruct Hu as [He Hu]. split; [done|]. apply IH; [done|].
    by rewrite <- app_assoc.
Qed.

Lemma selections_ordered_quiet pre u :
  Forall (λ e, ¬ is_identify e) u → selections_ordered pre u.
Proof.
  revert pre. induction u as [|e u IH]; intros pre Hu; simpl; [done|].
  inversion Hu; subst. split; [done|]. by apply IH.
Qed.

Lemma ev_relay_quiet e : ev_relay e → ¬ is_identify e.
Proof. destruct e; simpl; intros H Hid; try (destruct Hid; fail); by subst. Qed.

Lemma ev_find_quiet e : ev_find e → ¬ is_identify e.
Proof. destruct e; simpl; intros H Hid; try (destruct Hid; fail); by subst. Qed.

Lemma ev_intermediate_quiet np e : ev_intermediate np e → ¬ is_identify e.
Proof.
  destruct e; simpl; intros H Hid; try (destruct Hid; fail).
  by destruct H; subst.
Qed.

Lemma ev_promote_quiet np e : ev_promote np e → ¬ is_identify e.
Proof. destruct e; simpl; intros H Hid; try (destruct Hid; fail); by subst. Qed.

End Order.

Arguments selections_ordered : simpl never.

(** Checking [selections_ordered] along a trace built from events and from
    the traces of the parts. *)
Ltac quiet_part :=
  match goal with
  | H : Forall ev_relay ?t |- Forall _ ?t =>
      exact (Forall_impl _ _ _ H ev_relay_quiet)
  | H : Forall ev_find ?t |- Forall _ ?t =>
      exact (Forall_impl _ _ _ H ev_find_quiet)
  | H : Forall (ev_intermediate ?np) ?t |- Forall _ ?t =>
      exact (Forall_impl _ _ _ H (ev_intermediate_quiet np))
  | H : Forall (ev_promote ?np) ?t |- Forall _ ?t =>
      exact (Forall_impl _ _ _ H (ev_promote_quiet np))
  end.

Ltac ordered_walk :=
  repeat first
    [ exact I
    | lazymatch goal with
      | |- selections_ordered _ (_ ++ _) =>
          apply selections_ordered_app;
          [first [apply selections_ordered_quiet; quiet_part | idtac]|]
      | |- selections_ordered _ (_ :: _) =>
          split;
          [first [ solve [intros []]
                 | intros _; first [ left; apply last_snoc
                                   | right; eexists; split; trace_in ] ]|]
      | |- selections_ordered _ _ => apply selections_ordered_quiet; quiet_part
      end ].

Section OrderOfRun.
Context `{C : Collaborators}.

Lemma reparentShardLocked_order ks sh opts st pre :
  wp (reparentShardLocked ks sh opts) st (λ r s t, selections_ordered pre t).
Proof.
  unfold reparentShardLocked. wp_walk.
  all: repeat match goal with
       | x : Result Tablet |- _ => destruct x
       | H : returns (Panic _) |- _ => destruct H
       | H : ∀ l, Ok ?a = Ok l → _ |- _ => pose proof (H _ eq_refl) as [? ?]; clear H
       end.
  all: unfold identify_trace; cbn.
  all: ordered_walk.
Qed.

End OrderOfRun.
(** ** ReparentShard around reparentShardLocked *)

Section Operation.
Context `{C : Collaborators}.

(** The options with the lock action filled in. *)
Definition locked_opts (opts : EmergencyReparentOptions) : EmergencyReparentOptions :=
  set_lockAction (getLockAction (NewPrimaryAlias opts)) opts.

(** What LockShard answers in the state [st]. *)
Definition lock_result (ks sh : string) (opts : EmergencyReparentOptions) (st : St)
    : option Error * World :=
  LockShard ks sh (lockAction (locked_opts opts)) (world st).

(** The state in which reparentShardLocked starts once the lock is held. *)
Definition locked_state (ks sh : string) (opts : EmergencyReparentOptions) (st : St) : St :=
  mkSt (lock_result ks sh opts st).2 (stats st) (mkReparent None None).

(** The deferred count of the outcome. *)
Definition count_outcome (err : option Error) (s : Stats) : Stats :=
  match err with
  | None => mkStats (ersCounter s) (Gauge_Add (ersSuccessCounter s) 1) (ersFailureCounter s)
  | Some _ => mkStats (ersCounter s) (ersSuccessCounter s) (Gauge_Add (ersFailureCounter s) 1)
  end.

Definition dispatch_outcome (err : option Error) : Event :=
  match err with
  | None => DispatchUpdate "finished EmergencyReparentShard"
  | Some e => DispatchUpdate ("failed EmergencyReparentShard: " +:+ Error_text e)
  end.

Lemma ReparentShard_not_locked ks sh opts st err :
  (lock_result ks sh opts st).1 = Some err →
  ReparentShard ks sh opts st =
  mkOut (Ok (None, Some err)) (set_world (lock_result ks sh opts st).2 st)
        [Topo_LockShard (lockAction (locked_opts opts))].
Proof.
  unfold lock_result, locked_opts. intros Hlock.
  unfold ReparentShard, bind, try_, call_. simpl in *. rewrite Hlock. done.
Qed.

Opaque reparentShardLocked.

Lemma ReparentShard_locked ks sh opts st :
  (lock_result ks sh opts st).1 = None →
  let o := reparentShardLocked ks sh (locked_opts opts) (locked_state ks sh opts st) in
  ReparentShard ks sh opts st =
  mkOut (match result o with
         | Panic msg => Panic msg
         | r => Ok (Some (ev (final o)), err_of r)
         end)
        (mkSt (unlock (err_of (result o)) (world (final o)))
              (count_outcome (err_of (result o)) (stats (final o)))
              (ev (final o)))
        (Topo_LockShard (lockAction (locked_opts opts)) :: trace o ++
         [dispatch_outcome (err_of (result o)); Topo_unlock (err_of (result o))]).
Proof.
  intros Hlock. unfold lock_result, locked_state, locked_opts in *.
  cbv zeta. unfold ReparentShard.
  set (opts' := set_lockAction (getLockAction (NewPrimaryAlias opts)) opts) in *.
  unfold bind at 1, try_, call_. cbn [result final trace].
  rewrite Hlock. cbn [result final trace world stats ev set_world].
  unfold bind at 1, modify_ev. cbn [result final trace world stats ev app].
  unfold then_deferred.
  unfold bind, modify_stats, event_DispatchUpdate, emit, tick, panic, set_world.
  cbn [result final trace world stats ev].
  set (o := reparentShardLocked ks sh opts' _). clearbody o.
  destruct o as [[[]|e|msg] s t]; cbn; rewrite ?app_nil_r; done.
Qed.

Transparent reparentShardLocked.

End Operation.
(** ** Properties of the operation *)

Section Claims.
Context `{C : Collaborators}.

Lemma Gauge_Add_1 g : (int64_min ≤ g < int64_max)%Z → Gauge_Add g 1 = (g + 1)%Z.
Proof.
  unfold Gauge_Add, wrap_int64, int64_min, int64_max. intros Hg.
  rewrite Z.mod_small; lia.
Qed.

Lemma checkIfConstraintsSatisfied_None np prev opts :
  checkIfConstraintsSatisfied np prev opts = None →
  PromotionRule np ≠ MustNotPromoteRule ∧
  (PreventCrossCellPromotion opts = true →
   ∀ p, prev = Some p → Cell (Alias np) = Cell (Alias p)).
Proof.
  unfold checkIfConstraintsSatisfied. intros H.
  destruct (PreventCrossCellPromotion opts) eqn:Hp; simpl in H.
  - destruct prev as [p|].
    + case_bool_decide as Hc; [done|]. case_bool_decide; [done|].
      split; [done|]. intros _ ? [= <-]. destruct (decide (Cell (Alias np) = Cell (Alias p))); done.
    + case_bool_decide; [done|]. split; [done|]. by intros.
  - case_bool_decide; [done|]. split; [done|]. by intros.
Qed.

(** C8: if, after the errant GTID filter and the restriction, no valid
    candidate is left, the operation fails with FAILED_PRECONDITION, no
    valid candidates for emergency reparent, and none of the later steps
    (relay log wait, selection, reparent, promotion) is performed. *)
Theorem no_valid_candidates_aborts ks sh opts st :
  Restricted 0 ∈ trace (ReparentShard ks sh opts st) →
  (∃ e, result (ReparentShard ks sh opts st) = Ok (Some e, Some no_valid_candidates)) ∧
  Code_of no_valid_candidates = Code_FAILED_PRECONDITION ∧
  Forall (λ e, ¬ later_step e) (trace (ReparentShard ks sh opts st)).
Proof.
  destruct (lock_result ks sh opts st).1 as [err|] eqn:Hlock.
  - rewrite (ReparentShard_not_locked _ _ _ _ _ Hlock). simpl. intros Hin.
    apply list_elem_of_singleton in Hin. discriminate.
  - rewrite (ReparentShard_locked _ _ _ _ Hlock). cbn [trace result].
    pose proof (reparentShardLocked_no_candidates ks sh (locked_opts opts)
                  (locked_state ks sh opts st)) as Hrun.
    unfold wp in Hrun. intros Hin.
    apply elem_of_cons in Hin as [Hin|Hin]; [discriminate|].
    apply elem_of_app in Hin as [Hin|Hin].
    + destruct (Hrun Hin) as [-> Hall]. split; [eauto|]. split; [done|].
      apply Forall_cons_2; [by intros []|]. apply Forall_app_2; [done|].
      simpl. repeat (apply Forall_cons_2; [by intros []|]). apply Forall_nil_2.
    + exfalso. destruct (err_of _); simpl in Hin;
        repeat (apply elem_of_cons in Hin as [Hin|Hin]; [discriminate|]);
        by apply elem_of_nil in Hin.
Qed.

(** C9, as the code has it: an invocation that acquires the shard lock and
    returns adds exactly 1 to exactly one of ers_success_counter and
    ers_failure_counter, the first when the returned error is nil and the
    second when it is not; an invocation whose lock acquisition fails returns
    that error and changes none of the gauges. *)
Theorem counters_once_locked ks sh opts st :
  (int64_min ≤ ersSuccessCounter (stats st) < int64_max)%Z →
  (int64_min ≤ ersFailureCounter (stats st) < int64_max)%Z →
  let O := ReparentShard ks sh opts st in
  match (lock_result ks sh opts st).1 with
  | Some lockErr =>
      result O = Ok (None, Some lockErr) ∧ stats (final O) = stats st
  | None =>
      ∀ e err, result O = Ok (e, err) →
        match err with
        | None =>
            ersSuccessCounter (stats (final O)) = (ersSuccessCounter (stats st) + 1)%Z ∧
            ersFailureCounter (stats (final O)) = ersFailureCounter (stats st)
        | Some _ =>
            ersFailureCounter (stats (final O)) = (ersFailureCounter (stats st) + 1)%Z ∧
            ersSuccessCounter (stats (final O)) = ersSuccessCounter (stats st)
        end
  end.
Proof.
  intros Hs Hf O. unfold O.
  destruct (lock_result ks sh opts st).1 as [lockErr|] eqn:Hlock.
  - by rewrite (ReparentShard_not_locked _ _ _ _ _ Hlock).
  - rewrite (ReparentShard_locked _ _ _ _ Hlock). cbn [result final stats].
    pose proof (reparentShardLocked_stats ks sh (locked_opts opts)
                  (locked_state ks sh opts st)) as Hrun.
    unfold wp in Hrun. destruct Hrun as (_ & Hs' & Hf'). simpl in Hs', Hf'.
    intros e err Hres.
    destruct (result (reparentShardLocked _ _ _ _)) as [[]|e'|msg];
      simplify_eq; simpl; rewrite Hs', Hf'; by rewrite Gauge_Add_1.
Qed.


(** C4: once the constraint check has failed ReparentShard returns an error:
    with no previous primary it returns ABORTED and attempts no promotion;
    otherwise it runs the promotion for the previous primary, and returns
    the constraint error alone when that promotion succeeds, and the error
    of the promotion joined with the constraint error when it fails. *)
Theorem constraint_failure_is_undone ks sh opts st np prevPrimary failure :
  Return_ (F_checkIfConstraintsSatisfied np prevPrimary) (Some failure)
    ∈ trace (ReparentShard ks sh opts st) →
  let O := ReparentShard ks sh opts st in
  match prevPrimary with
  | None =>
      (∃ e, result O = Ok (Some e, Some (undo_failed could_not_undo failure))) ∧
      Code_of (undo_failed could_not_undo failure) = Code_ABORTED ∧
      ∀ x, (Rpc_PromoteReplica x ∉ trace O) ∧ (Enter (F_promoteNewPrimary x) ∉ trace O)
  | Some prev =>
      ∃ undo,
        Enter (F_promoteNewPrimary prev) ∈ trace O ∧
        Return_ (F_promoteNewPrimary prev) undo ∈ trace O ∧
        (∀ x undo', Return_ (F_promoteNewPrimary x) undo' ∈ trace O →
                    x = prev ∧ undo' = undo) ∧
        ∃ e, result O = Ok (Some e, Some (match undo with
                                          | None => failure
                                          | Some err => undo_failed err failure
                                          end))
  end.
Proof.
  intros Hin O. unfold O. clear O. revert Hin.
  destruct (lock_result ks sh opts st).1 as [err|] eqn:Hlock.
  - rewrite (ReparentShard_not_locked _ _ _ _ _ Hlock). simpl. intros Hin.
    apply list_elem_of_singleton in Hin. discriminate.
  - rewrite (ReparentShard_locked _ _ _ _ Hlock). cbn [trace result].
    pose proof (reparentShardLocked_constraints ks sh (locked_opts opts)
                  (locked_state ks sh opts st)) as Hrun.
    unfold wp in Hrun. destruct Hrun as [Hcheck _].
    set (o := reparentShardLocked _ _ _ _) in *. clearbody o.
    assert (∀ oe x, x ∈ Topo_LockShard (lockAction (locked_opts opts)) :: trace o ++
                   [dispatch_outcome oe; Topo_unlock oe] →
                 (∀ f r, x ≠ Return_ f r) ∨ x ∈ trace o) as Hsplit.
    { intros oe x Hx. apply elem_of_cons in Hx as [->|Hx]; [by left|].
      apply elem_of_app in Hx as [Hx|Hx]; [by right|]. left.
      destruct oe; simpl in Hx;
        repeat (apply elem_of_cons in Hx as [->|Hx]; [done|]);
        by apply elem_of_nil in Hx. }
    assert (∀ oe x, x ∈ Topo_LockShard (lockAction (locked_opts opts)) :: trace o ++
                   [dispatch_outcome oe; Topo_unlock oe] →
                 (∀ f, x ≠ Enter f) ∧ (∀ y, x ≠ Rpc_PromoteReplica y) ∨ x ∈ trace o)
      as Hsplit'.
    { intros oe x Hx. apply elem_of_cons in Hx as [->|Hx]; [by left|].
      apply elem_of_app in Hx as [Hx|Hx]; [by right|]. left.
      destruct oe; simpl in Hx;
        repeat (apply elem_of_cons in Hx as [->|Hx]; [done|]);
        by apply elem_of_nil in Hx. }
    intros Hin. destruct (Hsplit _ _ Hin) as [Hne|Hin']; [exfalso; by eapply Hne|].
    destruct (Hcheck _ _ _ Hin') as [_ Hout]. destruct prevPrimary as [prev|].
    + destruct Hout as (undo & Hent & Hret & Huniq & Hres). exists undo.
      split; [trace_in|]. split; [trace_in|]. split.
      * intros x undo' Hx. destruct (Hsplit _ _ Hx) as [Hne|Hx']; [exfalso; by eapply Hne|].
        by apply Huniq.
      * rewrite Hres. eauto.
    + destruct Hout as [Hres Hnone]. rewrite Hres. split; [eauto|]. split; [done|].
      intros x. split; intros Hx; destruct (Hsplit' _ _ Hx) as [[Hne1 Hne2]|Hx'].
      * exfalso; by eapply Hne2.
      * by destruct (Hnone x).
      * exfalso; by eapply Hne1.
      * by destruct (Hnone x).
Qed.


End Claims.
(** ** Properties of the selections *)

Section Selection.
Context `{C : Collaborators}.

Lemma result_bind {A B} (m : M A) (k : A → M B) st a s t :
  m st = mkOut (Ok a) s t → result (bind m k st) = result (k a s).
Proof. unfold bind. by intros ->. Qed.

Lemma result_bind_Err {A B} (m : M A) (k : A → M B) st e s t :
  m st = mkOut (Err e) s t → result (bind m k st) = Err e.
Proof. unfold bind. by intros ->. Qed.

Lemma result_traced {A} f (m : M A) st : result (traced f m st) = result (m st).
Proof. done. Qed.

(** C10: when the shard record names no previous primary,
    checkIfConstraintsSatisfied reports no cross cell violation, whatever
    PreventCrossCellPromotion is: a candidate whose promotion rule is not
    MUST_NOT passes, in any cell. *)
Theorem no_previous_primary_any_cell newPrimary opts :
  PromotionRule newPrimary ≠ MustNotPromoteRule →
  checkIfConstraintsSatisfied newPrimary None opts = None.
Proof.
  intros Hrule. unfold checkIfConstraintsSatisfied.
  rewrite andb_false_r. by case_bool_decide.
Qed.

(** *** identifyPrimaryCandidate with a requested primary *)

Definition not_in_tablet_map (requested : string) : Error :=
  Errorf Code_INTERNAL
    "candidate %v not found in the tablet map; this an impossible situation"
    [ArgString requested].

Definition not_in_valid_candidates (requested : string) : Error :=
  Errorf Code_ABORTED "requested candidate %v is not in valid candidates list"
    [ArgString requested].


(** *** findMostAdvanced *)

Definition split_brain (winning other : TabletAlias) : Error :=
  Errorf Code_FAILED_PRECONDITION "split brain detected between servers - %v and %v"
    [ArgAlias winning; ArgAlias other].

Definition requested_has_errant_GTIDs (requested : string) : Error :=
  Errorf Code_FAILED_PRECONDITION "requested primary elect %v has errant GTIDs"
    [ArgString requested].

Lemma check_split_brain_passes w p ts i ps st :
  forallb (AtLeast p) ps = true →
  check_split_brain w p ts i ps st = mkOut (Ok tt) st [].
Proof.
  revert i. induction ps as [|q ps IH]; intros i Hall; simpl in *; [done|].
  apply andb_true_iff in Hall as [-> Hall]. simpl. by apply IH.
Qed.

Lemma check_split_brain_fails w p ts i ps st :
  forallb (AtLeast p) ps = false → (i + length ps ≤ length ts)%nat →
  ∃ other, other ∈ ts ∧
    check_split_brain w p ts i ps st = mkOut (Err (split_brain (Alias w) (Alias other))) st [].
Proof.
  revert i. induction ps as [|q ps IH]; intros i Hall Hlen; simpl in *; [done|].
  destruct (AtLeast p q) eqn:Hq; simpl in *.
  - apply IH; [done|lia].
  - destruct (lookup_lt_is_Some_2 ts i) as [other Hother]; [lia|].
    exists other. split; [by eapply list_elem_of_lookup_2|].
    unfold bind, index. by rewrite Hother.
Qed.

(** What the two helpers hand to findMostAdvanced: slices [ts] and [ps] that
    hold, index by index, the tablet of every valid candidate and its
    position, each candidate once. *)
Definition candidates_listed
    (vc : gmap string Position) (tm : gmap string TabletInfo)
    (ts : list Tablet) (ps : list Position) : Prop :=
  ∃ l : list (string * Position),
    l ≡ₚ map_to_list vc ∧ ps = l.*2 ∧
    Forall2 (λ t g, TI_Tablet <$> tm !! g.1 = Some t) ts l.

Lemma candidates_listed_length vc tm ts ps :
  candidates_listed vc tm ts ps → length ts = length ps.
Proof.
  intros (l & _ & -> & Hall). rewrite length_fmap. by eapply Forall2_length.
Qed.

Lemma candidates_listed_position vc tm ts ps p :
  candidates_listed vc tm ts ps → (p ∈ ps ↔ ∃ alias, vc !! alias = Some p).
Proof.
  intros (l & Hperm & -> & _). rewrite list_elem_of_fmap. split.
  - intros ([alias q] & -> & Hin). exists alias.
    rewrite Hperm in Hin. by apply elem_of_map_to_list in Hin.
  - intros (alias & Hlook). exists (alias, p). split; [done|].
    rewrite Hperm. by apply elem_of_map_to_list.
Qed.

Lemma candidates_listed_head vc tm ts ps w p :
  candidates_listed vc tm ts ps → ts !! 0 = Some w → ps !! 0 = Some p →
  ∃ alias ti, vc !! alias = Some p ∧ tm !! alias = Some ti ∧ TI_Tablet ti = w.
Proof.
  intros (l & Hperm & -> & Hall) Hw Hp.
  destruct l as [|[alias q] l]; [done|]. simpl in Hp. simplify_eq.
  inversion Hall as [|? ? ? ? Hhead]; subst. simpl in *. simplify_eq.
  destruct (tm !! alias) as [ti|] eqn:Hti; [|done]. simpl in Hhead. simplify_eq.
  exists alias, ti. split; [|done].
  apply elem_of_map_to_list. rewrite <- Hperm. apply list_elem_of_here.
Qed.

Section findMostAdvanced.
Variables (prevPrimary : option Tablet) (vc : gmap string Position)
          (tm : gmap string TabletInfo) (opts : EmergencyReparentOptions) (st : St)
          (lists : list Tablet * list Position)
          (ts : list Tablet) (ps : list Position).
Hypothesis Hlist : getValidCandidatesAndPositionsAsList vc tm = inr lists.
Hypothesis Hsort :
  sortTabletsForERS lists.1 lists.2
    match prevPrimary with Some prev => Cell (Alias prev) | None => "" end
  = (None, (ts, ps)).

(** The run of findMostAdvanced up to its split brain check. *)
Lemma findMostAdvanced_head winning position :
  ts !! 0 = Some winning → ps !! 0 = Some position →
  result (findMostAdvanced prevPrimary vc tm opts st) =
  result (bind (check_split_brain winning position ts 0 ps) (λ _,
    match NewPrimaryAlias opts with
    | Some alias =>
        match vc !! TabletAliasString alias with
        | None => throw (requested_has_errant_GTIDs (TabletAliasString alias))
        | Some pos =>
            if AtLeast pos position
            then match tm !! TabletAliasString alias with
                 | None => throw (not_in_tablet_map (TabletAliasString alias))
                 | Some requestedPrimaryInfo => ret (TI_Tablet requestedPrimaryInfo, ts)
                 end
            else ret (winning, ts)
        end
    | None => ret (winning, ts)
    end) st).
Proof.
  intros Hw Hp. unfold findMostAdvanced. rewrite result_traced.
  erewrite result_bind; [|done]. rewrite Hlist.
  erewrite result_bind; [|done]. cbv zeta. rewrite Hsort. cbn [fst snd].
  erewrite result_bind; [|apply for_each_log].
  erewrite result_bind; [|by unfold index; rewrite Hw].
  erewrite result_bind; [|by unfold index; rewrite Hp].
  done.
Qed.

Lemma findMostAdvanced_no_candidate :
  ts = [] → ∃ msg, result (findMostAdvanced prevPrimary vc tm opts st) = Panic msg.
Proof.
  intros ->. unfold findMostAdvanced. rewrite result_traced.
  erewrite result_bind; [|done]. rewrite Hlist.
  erewrite result_bind; [|done]. cbv zeta. rewrite Hsort. cbn [fst snd].
  erewrite result_bind; [|apply for_each_log]. eexists. done.
Qed.

End findMostAdvanced.

Lemma candidates_listed_tablet vc tm ts ps alias p :
  candidates_listed vc tm ts ps → vc !! alias = Some p → is_Some (tm !! alias).
Proof.
  intros (l & Hperm & -> & Hall) Hlook.
  apply elem_of_map_to_list in Hlook. rewrite <- Hperm in Hlook.
  apply list_elem_of_lookup in Hlook as [i Hi].
  destruct (Forall2_lookup_r _ _ _ _ _ Hall Hi) as (t & _ & Ht). simpl in Ht.
  by destruct (tm !! alias).
Qed.

Lemma forallb_AtLeast p ps :
  forallb (AtLeast p) ps = true ↔ ∀ q, q ∈ ps → AtLeast p q = true.
Proof.
  rewrite forallb_forall. split; intros H q Hq; apply H; by apply list_elem_of_In.
Qed.

Lemma forallb_AtLeast_false p ps :
  forallb (AtLeast p) ps = false → ∃ q, q ∈ ps ∧ AtLeast p q = false.
Proof.
  induction ps as [|x ps IH]; simpl; [done|].
  destruct (AtLeast p x) eqn:Hx; simpl.
  - intros (q & Hq & Hnot)%IH. exists q. split; [by apply list_elem_of_further|done].
  - intros _. exists x. split; [apply list_elem_of_here|done].
Qed.

(** C1: once the valid candidates are sorted and the head is chosen,
    findMostAdvanced fails with the FAILED_PRECONDITION split brain error
    exactly when some other valid candidate has a position that the head's
    position is not AtLeast; when it returns a tablet, the position of that
    tablet is AtLeast the position of every valid candidate; and it makes no
    call to a tablet, so that no promotion takes place in it. *)
Theorem split_brain_detected prevPrimary vc tm opts st lists ts ps :
  getValidCandidatesAndPositionsAsList vc tm = inr lists →
  sortTabletsForERS lists.1 lists.2
    match prevPrimary with Some prev => Cell (Alias prev) | None => "" end
  = (None, (ts, ps)) →
  candidates_listed vc tm ts ps →
  (∀ p, AtLeast p p = true) →
  (∀ a b c, AtLeast a b = true → AtLeast b c = true → AtLeast a c = true) →
  let O := findMostAdvanced prevPrimary vc tm opts st in
  ((∃ a b, result O = Err (split_brain a b) ∧
           Code_of (split_brain a b) = Code_FAILED_PRECONDITION) ↔
   (∃ head alias pos, ps !! 0 = Some head ∧ vc !! alias = Some pos ∧
                      pos ≠ head ∧ AtLeast head pos = false)) ∧
  (∀ w l, result O = Ok (w, l) →
     ∃ alias pw ti, vc !! alias = Some pw ∧ tm !! alias = Some ti ∧ TI_Tablet ti = w ∧
                    ∀ a p, vc !! a = Some p → AtLeast pw p = true) ∧
  final O = st ∧ Forall ev_find (trace O).
Proof.
  intros Hlist Hsort Hlisted Hrefl Htrans O.
  split; [|split; [|apply (findMostAdvanced_spec prevPrimary vc tm opts st)]].
  - unfold O. pose proof (candidates_listed_length _ _ _ _ Hlisted) as Hlen.
    destruct ts as [|w ts']; destruct ps as [|p ps']; try done.
    { destruct (findMostAdvanced_no_candidate prevPrimary vc tm opts st lists [] []
                  Hlist Hsort eq_refl) as [msg ->].
      split; [by intros (? & ? & ? & _)|by intros (? & ? & ? & ? & _)]. }
    rewrite (findMostAdvanced_head _ _ _ _ _ _ _ _ Hlist Hsort w p eq_refl eq_refl).
    destruct (forallb (AtLeast p) (p :: ps')) eqn:Hall.
    + erewrite result_bind; [|by apply check_split_brain_passes]. split.
      * intros (a & b & Hres & _). exfalso.
        destruct (NewPrimaryAlias opts); [|done].
        destruct (vc !! _); [|done]. destruct (AtLeast _ p); [|done].
        by destruct (tm !! _).
      * intros (head & alias & pos & Hhead & Hpos & _ & Hnot). exfalso.
        simpl in Hhead. simplify_eq.
        assert (pos ∈ head :: ps') as Hin
          by (apply (candidates_listed_position _ _ _ _ _ Hlisted); eauto).
        apply forallb_AtLeast with (q:=pos) in Hall; [congruence|done].
    + destruct (check_split_brain_fails w p (w :: ts') 0 (p :: ps') st Hall)
        as (other & _ & Hfail); [simpl in *; lia|].
      erewrite result_bind_Err; [|done]. split.
      * intros _. destruct (forallb_AtLeast_false _ _ Hall) as (q & Hq & Hnot).
        apply (candidates_listed_position _ _ _ _ _ Hlisted) in Hq as [alias Halias].
        exists p, alias, q. split; [done|]. split; [done|]. split; [|done].
        intros ->. by rewrite Hrefl in Hnot.
      * intros _. by exists (Alias w), (Alias other).
  - unfold O. intros w l. pose proof (candidates_listed_length _ _ _ _ Hlisted) as Hlen.
    destruct ts as [|w0 ts']; destruct ps as [|p ps']; try done.
    { destruct (findMostAdvanced_no_candidate prevPrimary vc tm opts st lists [] []
                  Hlist Hsort eq_refl) as [msg ->]. done. }
    rewrite (findMostAdvanced_head _ _ _ _ _ _ _ _ Hlist Hsort w0 p eq_refl eq_refl).
    destruct (forallb (AtLeast p) (p :: ps')) eqn:Hall.
    + erewrite result_bind; [|by apply check_split_brain_passes].
      assert (∀ a q, vc !! a = Some q → AtLeast p q = true) as Hdom.
      { intros a q Hq. apply forallb_AtLeast with (q:=q) in Hall; [done|].
        apply (candidates_listed_position _ _ _ _ _ Hlisted); eauto. }
      destruct (candidates_listed_head _ _ _ _ w0 p Hlisted eq_refl eq_refl)
        as (alias0 & ti0 & Hvc0 & Htm0 & Hw0).
      destruct (NewPrimaryAlias opts) as [alias|].
      * destruct (vc !! TabletAliasString alias) as [pos|] eqn:Hreq; [|done].
        destruct (AtLeast pos p) eqn:Hpos.
        -- destruct (tm !! TabletAliasString alias) as [ti|] eqn:Hti; [|done].
           intros [= <- <-]. exists (TabletAliasString alias), pos, ti.
           repeat (split; [done|]). intros a q Hq. eapply Htrans; [done|]. eauto.
        -- intros [= <- <-]. exists alias0, p, ti0. eauto.
      * intros [= <- <-]. exists alias0, p, ti0. eauto.
    + destruct (check_split_brain_fails w0 p (w0 :: ts') 0 (p :: ps') st Hall)
        as (other & _ & Hfail); [simpl in *; lia|].
      erewrite result_bind_Err; [|done]. done.
Qed.

(** C5: in findMostAdvanced with new_primary_alias set, a requested alias
    that is among the valid candidates with a position AtLeast the position
    of the most advanced candidate makes its tablet the intermediate source;
    one that is behind leaves the most advanced candidate in place; and one
    that is not among the valid candidates fails the selection with
    FAILED_PRECONDITION, the requested primary elect has errant GTIDs. *)
Theorem requested_primary_as_intermediate
    prevPrimary vc tm opts st lists ts ps alias winning position :
  NewPrimaryAlias opts = Some alias →
  getValidCandidatesAndPositionsAsList vc tm = inr lists →
  sortTabletsForERS lists.1 lists.2
    match prevPrimary with Some prev => Cell (Alias prev) | None => "" end
  = (None, (ts, ps)) →
  candidates_listed vc tm ts ps →
  ts !! 0 = Some winning → ps !! 0 = Some position →
  let r := result (findMostAdvanced prevPrimary vc tm opts st) in
  match vc !! TabletAliasString alias with
  | Some pos =>
      forallb (AtLeast position) ps = true →
      if AtLeast pos position
      then ∃ ti, tm !! TabletAliasString alias = Some ti ∧ r = Ok (TI_Tablet ti, ts)
      else r = Ok (winning, ts)
  | None =>
      ∃ e, r = Err e ∧ Code_of e = Code_FAILED_PRECONDITION ∧
           (forallb (AtLeast position) ps = true →
            e = requested_has_errant_GTIDs (TabletAliasString alias))
  end.
Proof.
  intros Hreq Hlist Hsort Hlisted Hw Hp r. unfold r.
  rewrite (findMostAdvanced_head _ _ _ _ _ _ _ _ Hlist Hsort _ _ Hw Hp), Hreq.
  destruct (vc !! TabletAliasString alias) as [pos|] eqn:Hvc.
  - intros Hall. erewrite result_bind; [|by apply check_split_brain_passes].
    destruct (AtLeast pos position); [|done].
    destruct (candidates_listed_tablet _ _ _ _ _ _ Hlisted Hvc) as [ti Hti].
    exists ti. by rewrite Hti.
  - destruct (forallb (AtLeast position) ps) eqn:Hall.
    + erewrite result_bind; [|by apply check_split_brain_passes]. eauto.
    + destruct (check_split_brain_fails winning position ts 0 ps st Hall)
        as (other & _ & Hfail).
      { rewrite (candidates_listed_length _ _ _ _ Hlisted). simpl. lia. }
      erewrite result_bind_Err; [|done]. eexists. split; [done|]. split; [done|].
      done.
Qed.

End Selection.
(** ** reparentReplicas when it waits for all the replicas *)

Section WaitForAll.
Context `{C : Collaborators}.

(** The errors that the replica goroutines recorded, in the order of the
    calls of rec.RecordError. *)
Definition recorded_errors (t : list Event) : list Error :=
  omap (λ e, match e with RecordError err => Some err | _ => None end) t.

(** The warning that reparentReplicas logs when the step on the primary
    has failed. *)
Definition primary_failed : Event := Log "primary failed to PopulateReparentJournal".

Lemma recorded_errors_app t1 t2 :
  recorded_errors (t1 ++ t2) = recorded_errors t1 ++ recorded_errors t2.
Proof. apply omap_app. Qed.

(** What the goroutines of a queue [q] have done to the shared variables. *)
Definition goroutines_done (wait : bool) (q : list (string * TabletInfo))
    (v v' : ReplicaVars) (t : list Event) : Prop :=
  (wait = true → replSuccessCtx_Done v' = replSuccessCtx_Done v) ∧
  rec_Errors v' = rec_Errors v ++ recorded_errors t ∧
  (primary_failed ∉ t) ∧ (∀ c, Select c ∉ t) ∧
  ∃ ok, sublist ok q ∧
        replicasStartedReplication v' =
          replicasStartedReplication v ++ ((TI_Tablet ∘ snd) <$> ok) ∧
        length (recorded_errors t) + length ok = length q.

Lemma handleReplica_done np sm wait g v st :
  wp (handleReplica np sm wait g v) st
     (λ r s t, ∃ v', r = Ok v' ∧ goroutines_done wait [g] v v' t).
Proof.
  unfold handleReplica, goroutines_done.
  repeat wp_step; eexists; (split; [done|]); simpl.
  all: split; [by intros ->|].
  all: split; [by rewrite ?app_nil_r|].
  all: split; [intros Hin; repeat (apply elem_of_cons in Hin as [Hin|Hin];
                                   [discriminate|]); by apply elem_of_nil in Hin|].
  all: split; [intros c Hin; repeat (apply elem_of_cons in Hin as [Hin|Hin];
                                     [discriminate|]); by apply elem_of_nil in Hin|].
  1, 2: exists []; split; [apply sublist_nil_l|by rewrite app_nil_r].
  by exists [g].
Qed.

Lemma goroutines_done_cons wait g q v v1 v2 t1 t2 :
  goroutines_done wait [g] v v1 t1 → goroutines_done wait q v1 v2 t2 →
  goroutines_done wait (g :: q) v v2 (t1 ++ t2).
Proof.
  intros (Hd1 & He1 & Hp1 & Hs1 & ok1 & Hsub1 & Hst1 & Hl1)
         (Hd2 & He2 & Hp2 & Hs2 & ok2 & Hsub2 & Hst2 & Hl2).
  split; [intros Hw; by rewrite Hd2, Hd1|].
  split; [by rewrite He2, He1, recorded_errors_app, app_assoc|].
  split; [rewrite elem_of_app; tauto|].
  split; [intros c; rewrite elem_of_app; specialize (Hs1 c); specialize (Hs2 c); tauto|].
  exists (ok1 ++ ok2). split; [by apply (sublist_app _ [g])|].
  split; [by rewrite Hst2, Hst1, fmap_app, app_assoc|].
  rewrite recorded_errors_app, !length_app. simpl in *. lia.
Qed.

Lemma goroutines_done_nil wait v : goroutines_done wait [] v v [].
Proof.
  split; [done|]. split; [by rewrite app_nil_r|]. split; [by intros ?%elem_of_nil|].
  split; [by intros c ?%elem_of_nil|]. exists []. split; [done|]. by rewrite app_nil_r.
Qed.

Lemma run_goroutines_done np sm wait q v st :
  wp (run_goroutines (handleReplica np sm wait) q v) st
     (λ r s t, ∃ v', r = Ok v' ∧ goroutines_done wait q v v' t).
Proof.
  revert v st. induction q as [|g q IH]; intros v st; simpl.
  - wp_step. eexists. split; [done|]. apply goroutines_done_nil.
  - wp_step. wp_use handleReplica_done. destruct H as (v1 & -> & H1).
    wp_use IH. destruct H as (v2 & -> & H2).
    eexists. split; [done|]. by eapply goroutines_done_cons.
Qed.

(** With no first-success signal to come, [select] returns when all the
    goroutines are done. *)
Lemma select_wait_all np sm q v st :
  replSuccessCtx_Done v = false →
  wp (select_wait np sm true q v) st
     (λ r s t, ∃ v', r = Ok (AllReplicasDone, v') ∧ goroutines_done true q v v' t).
Proof.
  revert v st. induction q as [|g q IH]; intros v st Hv; simpl; rewrite Hv.
  - repeat wp_step. eexists. split; [done|]. apply goroutines_done_nil.
  - wp_step. wp_step. wp_step. wp_use handleReplica_done. destruct H as (v1 & -> & H1).
    assert (replSuccessCtx_Done v1 = false) as Hv1.
    { destruct H1 as (Hd & _). by rewrite Hd. }
    wp_use (IH v1 s Hv1). destruct H as (v2 & -> & H2).
    eexists. split; [done|]. simpl. by eapply goroutines_done_cons.
Qed.

(** Events that are neither a recorded error, nor the warning, nor a
    [select]. *)
Definition quiet (t : list Event) : Prop :=
  recorded_errors t = [] ∧ (primary_failed ∉ t) ∧ (∀ c, Select c ∉ t).

Lemma goroutines_done_app wait q1 q2 v v1 v2 t1 t2 :
  goroutines_done wait q1 v v1 t1 → goroutines_done wait q2 v1 v2 t2 →
  goroutines_done wait (q1 ++ q2) v v2 (t1 ++ t2).
Proof.
  intros (Hd1 & He1 & Hp1 & Hs1 & ok1 & Hsub1 & Hst1 & Hl1)
         (Hd2 & He2 & Hp2 & Hs2 & ok2 & Hsub2 & Hst2 & Hl2).
  split; [intros Hw; by rewrite Hd2, Hd1|].
  split; [by rewrite He2, He1, recorded_errors_app, app_assoc|].
  split; [rewrite elem_of_app; tauto|].
  split; [intros c; rewrite elem_of_app; specialize (Hs1 c); specialize (Hs2 c); tauto|].
  exists (ok1 ++ ok2). split; [by apply sublist_app|].
  split; [by rewrite Hst2, Hst1, fmap_app, app_assoc|].
  rewrite recorded_errors_app, !length_app. lia.
Qed.

Lemma goroutines_done_quiet wait q v v' t t0 :
  quiet t0 → goroutines_done wait q v v' t → goroutines_done wait q v v' (t0 ++ t).
Proof.
  intros (He0 & Hp0 & Hs0) (Hd & He & Hp & Hs & Hok).
  split; [done|]. split; [by rewrite recorded_errors_app, He0|].
  split; [rewrite elem_of_app; tauto|].
  split; [intros c; rewrite elem_of_app; specialize (Hs0 c); specialize (Hs c); tauto|].
  destruct Hok as (ok & ? & ? & ?). exists ok.
  by rewrite recorded_errors_app, He0.
Qed.

Lemma handlePrimary_quiet np opts populate now alias tablet st :
  wp (handlePrimary np opts populate now alias tablet) st
     (λ r s t, returns r ∧ quiet t).
Proof.
  unfold handlePrimary, quiet. repeat wp_step; (split; [done|]); (split; [done|]).
  all: split; [|intros c]; intros Hin;
       repeat (apply elem_of_cons in Hin as [Hin|Hin]; [discriminate|]);
       by apply elem_of_nil in Hin.
Qed.

Lemma wp_ask_exact {A} (f : World → A) st Q :
  Q (Ok (f (world st))) st [] → wp (ask f) st Q.
Proof. done. Qed.

(** reparentReplicas with waitForAllReplicas, up to its [select]: either the
    step on the primary fails and the warning is logged, or the case taken
    is the one of all the replicas done, every goroutine has run, and the
    recorder holds the errors recorded. *)
Lemma reparentReplicas_select_all np tm sm opts populate st :
  wp (reparentReplicas_select np tm sm opts true populate) st (λ r s t,
    match r with
    | Ok (n, c, v) =>
        n = length (fanout np tm opts) ∧ c = AllReplicasDone ∧
        (primary_failed ∉ t) ∧ Select AllReplicasDone ∈ t ∧
        (Select ReplSuccessDone ∉ t) ∧
        rec_Errors v = recorded_errors t ∧
        ∃ ok, ok ⊆+ fanout np tm opts ∧
              replicasStartedReplication v = (TI_Tablet ∘ snd) <$> ok ∧
              length (rec_Errors v) + length ok = n
    | Err e => primary_failed ∈ t ∧ Select AllReplicasDone ∉ t
    | Panic _ => False
    end).
Proof.
  unfold reparentReplicas_select. wp_step. wp_step. wp_step. wp_step.
  apply wp_bind, wp_ask_exact. cbn [world set_world]. cbv beta iota.
  set (queue := sched_order _ w (fanout np tm opts)).
  assert (queue ≡ₚ fanout np tm opts) as Hperm by apply sched_order_perm.
  clearbody queue. wp_step. wp_step. wp_step.
  wp_use run_goroutines_done. destruct H as (v1 & -> & H1).
  wp_step. wp_step. wp_use handlePrimary_quiet. destruct H as (Hr & Hq).
  destruct r as [[]|e|msg]; [| |done].
  - wp_step. wp_use select_wait_all.
    { destruct H1 as (Hd & _). by rewrite Hd. }
    destruct H as (v2 & -> & H2). wp_step. wp_step. wp_step. simpl.
    pose proof (goroutines_done_app _ _ _ _ _ _ _ _ H1
                  (goroutines_done_quiet _ _ _ _ _ _ Hq H2)) as Hall.
    rewrite take_drop in Hall.
    destruct Hall as (_ & He & Hp & Hs & ok & Hsub & Hst & Hlen). simpl in *.
    split; [done|]. split; [done|].
    split.
    { intros Hin. apply elem_of_cons in Hin as [Hin|Hin]; [discriminate|].
      rewrite !app_assoc in Hin. apply elem_of_app in Hin as [Hin|Hin].
      - rewrite <- !app_assoc in Hin. done.
      - apply list_elem_of_singleton in Hin. discriminate. }
    split; [apply list_elem_of_further; rewrite !app_assoc; apply elem_of_app; right;
            apply list_elem_of_here|].
    split.
    { intros Hin. apply elem_of_cons in Hin as [Hin|Hin]; [discriminate|].
      rewrite !app_assoc in Hin. apply elem_of_app in Hin as [Hin|Hin].
      - rewrite <- !app_assoc in Hin. by apply (Hs ReplSuccessDone).
      - apply list_elem_of_singleton in Hin. discriminate. }
    split.
    { rewrite He, !recorded_errors_app. simpl. by rewrite app_nil_r. }
    exists ok. split; [by rewrite <- Hperm; apply sublist_submseteq|].
    split; [done|]. rewrite He, Hperm in *. done.
  - repeat wp_step. simpl. split.
    + apply list_elem_of_further. rewrite !app_assoc. apply elem_of_app. right.
      apply list_elem_of_here.
    + intros Hin. apply elem_of_cons in Hin as [Hin|Hin]; [discriminate|].
      destruct H1 as (_ & _ & _ & Hs1 & _). destruct Hq as (_ & _ & Hsq).
      apply elem_of_app in Hin as [Hin|Hin]; [by apply (Hs1 AllReplicasDone)|].
      apply elem_of_app in Hin as [Hin|Hin]; [by apply (Hsq AllReplicasDone)|].
      apply list_elem_of_singleton in Hin. discriminate.
Qed.

Definition replicas_failed (numReplicas : nat) (errors : list Error) : Error :=
  Wrapf (AllErrorRecorder_Error errors) "%d replica(s) failed: %v"
        [ArgInt (Z.of_nat numReplicas); ArgError (AllErrorRecorder_Error errors)].

Lemma recorded_errors_traced f t r :
  recorded_errors (Enter f :: t ++ [Return_ f r]) = recorded_errors t.
Proof. simpl. rewrite recorded_errors_app. simpl. by rewrite app_nil_r. Qed.


End WaitForAll.
(** ** The lock, the gauges and the event of the operation *)

Section Locking.
Context `{C : Collaborators}.

Definition locking (e : Event) : Prop :=
  match e with Topo_LockShard _ | Topo_unlock _ => True | _ => False end.

Lemma ev_relay_no_locking e : ev_relay e → ¬ locking e.
Proof. destruct e; simpl; intros H Hl; by destruct Hl. Qed.

Lemma ev_find_no_locking e : ev_find e → ¬ locking e.
Proof. destruct e; simpl; intros H Hl; by destruct Hl. Qed.

Lemma ev_intermediate_no_locking np e : ev_intermediate np e → ¬ locking e.
Proof. destruct e; simpl; intros H Hl; by destruct Hl. Qed.

Lemma ev_promote_no_locking np e : ev_promote np e → ¬ locking e.
Proof. destruct e; simpl; intros H Hl; by destruct Hl. Qed.

End Locking.

Ltac no_locking_part :=
  match goal with
  | H : Forall ev_relay ?t |- Forall _ ?t =>
      exact (Forall_impl _ _ _ H ev_relay_no_locking)
  | H : Forall ev_find ?t |- Forall _ ?t =>
      exact (Forall_impl _ _ _ H ev_find_no_locking)
  | H : Forall (ev_intermediate ?np) ?t |- Forall _ ?t =>
      exact (Forall_impl _ _ _ H (ev_intermediate_no_locking np))
  | H : Forall (ev_promote ?np) ?t |- Forall _ ?t =>
      exact (Forall_impl _ _ _ H (ev_promote_no_locking np))
  end.

Section LockingOfRun.
Context `{C : Collaborators}.

(** reparentShardLocked neither takes nor releases the shard lock. *)
Lemma reparentShardLocked_no_locking ks sh opts st :
  wp (reparentShardLocked ks sh opts) st (λ r s t, Forall (λ e, ¬ locking e) t).
Proof.
  unfold reparentShardLocked. wp_walk.
  all: repeat match goal with
       | x : Result Tablet |- _ => destruct x
       | H : returns (Panic _) |- _ => destruct H
       end.
  all: unfold identify_trace.
  all: repeat first
         [ apply Forall_nil_2
         | apply Forall_cons_2; [solve [intros []]|]
         | apply Forall_app_2
         | no_locking_part ].
Qed.

End LockingOfRun.

Section OperationProperties.
Context `{C : Collaborators}.

(** reparentShardLocked names in the event the tablet whose promotion
    returned without error, if there is one. *)
Lemma reparentShardLocked_event ks sh opts st :
  wp (reparentShardLocked ks sh opts) st (λ r s t,
    ev_NewPrimary (ev st) = None →
    (r = Ok tt → is_Some (ev_NewPrimary (ev s))) ∧
    ∀ np, ev_NewPrimary (ev s) = Some np ↔ Return_ (F_promoteNewPrimary np) None ∈ t).
Proof.
  unfold reparentShardLocked. wp_walk.
  all: unfold same_vars in *; simpl in *; destruct_and?.
  all: repeat match goal with H : ev _ = _ |- _ => rewrite H; clear H end.
  all: simpl; intros Hnone; rewrite ?Hnone.
  all: (split; [first [done|by eauto]|]); intros np'.
  all: split; [intros Hev; simplify_eq; try trace_in
              |intros Hin; trace_elim Hin; by simplify_eq].
Qed.



(** X3: ers_counter counts the runs that held the lock: a run that took
    the lock adds 1 to it (an int64, so it wraps around), whether it then
    succeeds, fails or panics, and a run that did not get the lock leaves it
    as it is. *)
Theorem run_is_counted_once_locked ks sh opts st :
  ersCounter (stats (final (ReparentShard ks sh opts st))) =
  match (lock_result ks sh opts st).1 with
  | Some _ => ersCounter (stats st)
  | None => Gauge_Add (ersCounter (stats st)) 1
  end.
Proof.
  destruct (lock_result ks sh opts st).1 as [lockErr|] eqn:Hlock.
  - by rewrite (ReparentShard_not_locked _ _ _ _ _ Hlock).
  - rewrite (ReparentShard_locked _ _ _ _ Hlock). cbn [final stats].
    pose proof (reparentShardLocked_stats ks sh (locked_opts opts)
                  (locked_state ks sh opts st)) as Hrun.
    unfold wp in Hrun. destruct Hrun as (Hc & _). simpl in Hc.
    by destruct (err_of _).
Qed.

(** X4: the event that the operation returns names as new primary the
    tablet whose promotion returned without error, and no tablet when no
    promotion did.  After a success it names one; after a constraint failure
    that was undone it names the previous primary, although the operation
    returns an error. *)
Theorem event_names_promoted_primary ks sh opts st e err :
  result (ReparentShard ks sh opts st) = Ok (Some e, err) →
  (err = None → is_Some (ev_NewPrimary e)) ∧
  ∀ np, ev_NewPrimary e = Some np ↔
        Return_ (F_promoteNewPrimary np) None ∈ trace (ReparentShard ks sh opts st).
Proof.
  destruct (lock_result ks sh opts st).1 as [lockErr|] eqn:Hlock.
  - by rewrite (ReparentShard_not_locked _ _ _ _ _ Hlock).
  - rewrite (ReparentShard_locked _ _ _ _ Hlock). cbn [result trace].
    pose proof (reparentShardLocked_event ks sh (locked_opts opts)
                  (locked_state ks sh opts st)) as Hrun.
    unfold wp in Hrun. destruct (Hrun eq_refl) as [Hok Hnp]. clear Hrun.
    set (o := reparentShardLocked _ _ _ _) in *. clearbody o.
    intros Hres.
    assert (e = ev (final o) ∧ err = err_of (result o)) as [-> ->]
      by (destruct (result o) as [[]|?|?]; by simplify_eq).
    split.
    + destruct (result o) as [[]|?|?]; [by auto|done|done].
    + intros np. rewrite Hnp. split; [intros Hin; trace_in|].
      intros Hin. apply elem_of_cons in Hin as [Hin|Hin]; [discriminate|].
      apply elem_of_app in Hin as [Hin|Hin]; [done|].
      destruct (err_of (result o)); simpl in Hin;
        repeat (apply elem_of_cons in Hin as [Hin|Hin]; [discriminate|]);
        by apply elem_of_nil in Hin.
Qed.

End OperationProperties.
(** ** The order of the changes to the tablets *)

Section Changes.
Context `{C : Collaborators}.

Definition is_lock_check (e : Event) : bool :=
  match e with Topo_CheckShardLocked => true | _ => false end.

(** How often the shard lock has been checked in [t]. *)
Fixpoint lock_checks (t : list Event) : nat :=
  match t with
  | [] => 0
  | e :: t' => (if is_lock_check e then 1 else 0) + lock_checks t'
  end.

(** The calls that change a tablet. *)
Definition changes_tablet (e : Event) : Prop :=
  match e with
  | Rpc_SetMaster _ _ _ | Rpc_PromoteReplica _ | Rpc_PopulateReparentJournal _ => True
  | _ => False
  end.

(** The events so far show that replication has been stopped, that the relay
    logs have been applied, that the intermediate source has been found, and
    that the shard lock has been checked twice. *)
Definition prepared (pre : list Event) : Prop :=
  Call_StopReplicationAndBuildStatusMaps ∈ pre ∧
  Return_ F_waitForAllRelayLogsToApply None ∈ pre ∧
  Return_ F_findMostAdvanced None ∈ pre ∧
  (2 ≤ lock_checks pre)%nat.

(** The events so far show that [np] has passed the constraint check, or
    that the check has failed for a tablet and [np] is the previous primary. *)
Definition checked (np : Tablet) (pre : list Event) : Prop :=
  (∃ prev, Return_ (F_checkIfConstraintsSatisfied np prev) None ∈ pre) ∨
  (∃ c failure,
     Return_ (F_checkIfConstraintsSatisfied c (Some np)) (Some failure) ∈ pre).

(** What has to have happened before the event [e]. *)
Definition guard (pre : list Event) (e : Event) : Prop :=
  match e with
  | Rpc_SetMaster _ _ _ => prepared pre
  | Rpc_PromoteReplica np =>
      prepared pre ∧ checked np pre ∧ ∀ x, Rpc_PromoteReplica x ∉ pre
  | Rpc_PopulateReparentJournal x =>
      prepared pre ∧ Rpc_PromoteReplica x ∈ pre ∧ Rpc_MasterPosition x ∈ pre
  | Call_waitForCatchUp source target =>
      Alias target ≠ Alias source ∧
      Return_ (F_reparentReplicas source true false) None ∈ pre
  | _ => True
  end.

(** Every event of [t] is guarded, with [pre] before [t]. *)
Fixpoint each_guarded (pre t : list Event) : Prop :=
  match t with
  | [] => True
  | e :: t' => guard pre e ∧ each_guarded (pre ++ [e]) t'
  end.

Lemma lock_checks_app t1 t2 : lock_checks (t1 ++ t2) = lock_checks t1 + lock_checks t2.
Proof. induction t1 as [|e t1 IH]; simpl; [done|]. rewrite IH. lia. Qed.

Lemma prepared_app pre u : prepared pre → prepared (pre ++ u).
Proof.
  intros (H1 & H2 & H3 & H4). repeat split; try (apply elem_of_app; by left).
  rewrite lock_checks_app. lia.
Qed.

Lemma each_guarded_split pre t t1 e t2 :
  each_guarded pre t → t = t1 ++ e :: t2 → guard (pre ++ t1) e.
Proof.
  revert pre t1. induction t as [|x t IH]; intros pre t1 Hall Heq.
  - by destruct t1.
  - destruct Hall as [Hhere Hrest].
    destruct t1 as [|y t1]; simpl in Heq; simplify_eq.
    + by rewrite app_nil_r.
    + specialize (IH _ _ Hrest eq_refl). by rewrite <- app_assoc in IH.
Qed.

Lemma each_guarded_app pre u t :
  each_guarded pre u → each_guarded (pre ++ u) t → each_guarded pre (u ++ t).
Proof.
  revert pre. induction u as [|e u IH]; intros pre Hu Ht; simpl.
  - by rewrite app_nil_r in Ht.
  - destruct Hu as [He Hu]. split; [done|]. apply IH; [done|].
    by rewrite <- app_assoc.
Qed.

(** The events that are guarded. *)
Definition guarded (e : Event) : Prop :=
  match e with
  | Call_waitForCatchUp _ _ => True
  | _ => changes_tablet e
  end.

(** A stretch of events none of which is guarded. *)
Lemma each_guarded_quiet pre u :
  Forall (λ e, ¬ guarded e) u → each_guarded pre u.
Proof.
  revert pre. induction u as [|e u IH]; intros pre Hu; simpl; [done|].
  inversion Hu as [|? ? He Hu']; subst. split; [|by apply IH].
  destruct e; simpl in *; done.
Qed.

(** A stretch of events of replica goroutines, once all is prepared. *)
Lemma each_guarded_goroutines pre u :
  prepared pre → Forall ev_goroutine u → each_guarded pre u.
Proof.
  revert pre. induction u as [|e u IH]; intros pre Hpre Hu; simpl; [done|].
  inversion Hu as [|? ? He Hu']; subst. split.
  - destruct e; simpl in *; done.
  - apply IH; [by apply prepared_app|done].
Qed.

Lemma checked_app np pre u : checked np pre → checked np (pre ++ u).
Proof.
  intros [[prev H]|(c & f & H)]; [left; exists prev|right; exists c, f];
    apply elem_of_app; by left.
Qed.

Lemma ev_relay_changes e : ev_relay e → ¬ guarded e.
Proof. destruct e; simpl; intros H Hl; by destruct Hl. Qed.

Lemma ev_find_changes e : ev_find e → ¬ guarded e.
Proof. destruct e; simpl; intros H Hl; by destruct Hl. Qed.

Lemma ev_goroutine_promote x t : Forall ev_goroutine t → Rpc_PromoteReplica x ∉ t.
Proof. intros Hall Hin. by apply (proj1 (Forall_forall _ _) Hall) in Hin. Qed.

(** A function of the orchestrator that returns without error leaves its
    return mark. *)
Lemma wp_traced_returns {A} f (m : M A) st :
  wp (traced f m) st (λ r s t, ∀ a, r = Ok a → Return_ f None ∈ t).
Proof.
  unfold wp, traced. simpl. intros a ->. simpl.
  apply list_elem_of_further, elem_of_app. right. apply list_elem_of_here.
Qed.

Lemma wp_and {A} (m : M A) st (Q1 Q2 : Result A → St → list Event → Prop) :
  wp m st Q1 → wp m st Q2 → wp m st (λ r s t, Q1 r s t ∧ Q2 r s t).
Proof. unfold wp. auto. Qed.

End Changes.

Arguments each_guarded : simpl never.

(** Checking [each_guarded] along a trace built from events and from the
    traces of parts. *)
Ltac prepared_here :=
  lazymatch goal with
  | H : prepared ?p |- prepared ?p => exact H
  | |- prepared (_ ++ _) => apply prepared_app; prepared_here
  end.

Ltac checked_here :=
  lazymatch goal with
  | H : checked ?np ?p |- checked ?np ?p => exact H
  | |- checked _ (_ ++ _) => apply checked_app; checked_here
  end.

Ltac guarded_walk tac :=
  repeat first
    [ exact I
    | lazymatch goal with
      | |- each_guarded _ (_ ++ _) => apply each_guarded_app
      | |- each_guarded _ (_ :: _) => split; [first [exact I | tac]|]
      | |- each_guarded _ [] => exact I
      end
    | tac ].

Section ChangesOfParts.
Context `{C : Collaborators}.

(** reparentReplicas: the replicas are reparented only once all is prepared,
    the journal is written on the new primary only, after its position has
    been read, and no tablet is promoted. *)
Lemma reparentReplicas_guarded np tm sm opts wait populate st :
  wp (reparentReplicas np tm sm opts wait populate) st (λ r s t,
    (∀ x, Rpc_PromoteReplica x ∉ t) ∧
    ∀ pre, prepared pre → (populate = true → Rpc_PromoteReplica np ∈ pre) →
           each_guarded pre t).
Proof.
  unfold reparentReplicas, reparentReplicas_select, handlePrimary.
  repeat wp_step.
  wp_use run_goroutines_handleReplica_spec. destruct H as (_ & Ht & v' & ->).
  repeat wp_step.
  all: try (wp_use select_wait_spec; destruct H as (_ & Ht' & cv & ->)).
  all: repeat wp_step.
  all: try (wp_use reparentReplicas_return_spec; destruct H as (-> & Hr' & ->)).
  all: (split; [intros x Hin; trace_elim Hin|intros pre Hpre Hpop]).
  all: try match goal with
           | H : true = true → _ |- _ => specialize (H eq_refl)
           end.
  all: try match goal with
           | |- context [match ?r with Panic _ => _ | _ => _ end] => destruct r
           end.
  all: guarded_walk
         ltac:(first [ apply each_guarded_goroutines; [prepared_here|assumption]
                     | split; [prepared_here|split; trace_in] ]).
Qed.

Lemma promoteIntermediatePrimary_guarded np tm sm opts st :
  wp (promoteIntermediatePrimary np tm sm opts) st (λ r s t,
    (∀ x, Rpc_PromoteReplica x ∉ t) ∧
    ∀ pre, prepared pre → each_guarded pre t).
Proof.
  unfold promoteIntermediatePrimary. wp_step. wp_step.
  wp_use reparentReplicas_guarded. destruct H as [Hno Hg].
  destruct r; repeat wp_step.
  all: (split; [intros x Hin; trace_elim Hin; by eapply Hno|intros pre Hpre]).
  all: guarded_walk ltac:(apply Hg; [prepared_here|done]).
Qed.

Lemma promoteNewPrimary_guarded np opts tm sm st :
  wp (promoteNewPrimary np opts tm sm) st (λ r s t,
    ∀ pre, prepared pre → checked np pre → (∀ x, Rpc_PromoteReplica x ∉ pre) →
           each_guarded pre t).
Proof.
  unfold promoteNewPrimary. do 6 wp_step.
  2: wp_step; wp_use reparentReplicas_guarded; destruct H as [_ Hg];
     destruct r; repeat wp_step.
  all: intros pre Hpre Hck Hno.
  all: guarded_walk
         ltac:(first [ apply Hg; [prepared_here|intros _; trace_in]
                     | split; [prepared_here|split; [checked_here|]];
                       intros x Hin; trace_elim Hin; by eapply Hno ]).
Qed.

(** The parts of the run, with what each leaves in the trace. *)
Lemma waitForAllRelayLogsToApply_returns vc tm sm timeout st :
  wp (waitForAllRelayLogsToApply vc tm sm timeout) st (λ r s t,
    (same_vars st s ∧ returns r ∧ Forall ev_relay t) ∧
    (∀ a, r = Ok a → Return_ F_waitForAllRelayLogsToApply None ∈ t)).
Proof.
  apply wp_and; [apply waitForAllRelayLogsToApply_spec|apply wp_traced_returns].
Qed.

Lemma findMostAdvanced_returns prev vc tm opts st :
  wp (findMostAdvanced prev vc tm opts) st (λ r s t,
    (s = st ∧ Forall ev_find t) ∧
    (∀ a, r = Ok a → Return_ F_findMostAdvanced None ∈ t)).
Proof.
  apply wp_and; [apply findMostAdvanced_spec|apply wp_traced_returns].
Qed.

Lemma promoteIntermediatePrimary_changes np tm sm opts st :
  wp (promoteIntermediatePrimary np tm sm opts) st (λ r s t,
    (same_vars st s ∧ returns r ∧
     (∀ l, r = Ok l → Return_ (F_reparentReplicas np true false) None ∈ t)) ∧
    (∀ x, Rpc_PromoteReplica x ∉ t) ∧
    ∀ pre, prepared pre → each_guarded pre t).
Proof.
  apply wp_and; [|apply promoteIntermediatePrimary_guarded].
  wp_use promoteIntermediatePrimary_spec. destruct H as (? & ? & _ & Hret).
  split; [done|]. split; [done|]. intros l Hl. by destruct (Hret l Hl).
Qed.

Lemma promoteNewPrimary_changes np opts tm sm st :
  wp (promoteNewPrimary np opts tm sm) st (λ r s t,
    (same_vars st s ∧ returns r) ∧
    ∀ pre, prepared pre → checked np pre → (∀ x, Rpc_PromoteReplica x ∉ pre) →
           each_guarded pre t).
Proof.
  apply wp_and; [|apply promoteNewPrimary_guarded].
  wp_use promoteNewPrimary_spec. by destruct H as (? & ? & _).
Qed.

End ChangesOfParts.

Ltac prepared_now :=
  split; [trace_in|split; [trace_in|split; [trace_in|]]];
  rewrite !lock_checks_app; cbn [lock_checks is_lock_check]; lia.

Ltac not_promoted_yet :=
  let x := fresh "x" in
  let Hin := fresh "Hin" in
  intros x Hin; trace_elim Hin;
  match goal with
  | H : ∀ y, Rpc_PromoteReplica y ∉ ?t, Hin : Rpc_PromoteReplica _ ∈ ?t |- _ =>
      exact (H _ Hin)
  end.

Ltac guarded_part :=
  match goal with
  | H : negb (TabletAliasEqual (Alias ?a) (Alias ?b)) = true
    |- guard _ (Call_waitForCatchUp ?b ?a) =>
      split; [apply negb_true_iff, bool_decide_eq_false in H; exact H|trace_in]
  | H : Forall ev_relay ?t |- each_guarded _ ?t =>
      apply each_guarded_quiet; exact (Forall_impl _ _ _ H ev_relay_changes)
  | H : Forall ev_find ?t |- each_guarded _ ?t =>
      apply each_guarded_quiet; exact (Forall_impl _ _ _ H ev_find_changes)
  | H : ∀ pre, prepared pre → each_guarded pre ?t |- each_guarded _ ?t =>
      apply H; prepared_now
  | H : ∀ pre, prepared pre → checked _ pre → _ → each_guarded pre ?t
    |- each_guarded _ ?t =>
      apply H;
      [ prepared_now
      | first [left; eexists; trace_in | right; eexists _, _; trace_in]
      | not_promoted_yet ]
  end.

Ltac wp_part_changes :=
  lazymatch goal with
  | |- wp (waitForAllRelayLogsToApply _ _ _ _) _ _ =>
      wp_use waitForAllRelayLogsToApply_returns
  | |- wp (findMostAdvanced _ _ _ _) _ _ => wp_use findMostAdvanced_returns
  | |- wp (intermediateCandidateIsIdeal _ _ _ _ _) _ _ =>
      wp_use intermediateCandidateIsIdeal_spec
  | |- wp (promoteIntermediatePrimary _ _ _ _) _ _ =>
      wp_use promoteIntermediatePrimary_changes
  | |- wp (identifyPrimaryCandidate _ _ _ _ _) _ _ =>
      wp_use identifyPrimaryCandidate_spec
  | |- wp (promoteNewPrimary _ _ _ _) _ _ => wp_use promoteNewPrimary_changes
  end;
  repeat first
    [ progress destruct_and?
    | match goal with H : ∃ _, _ |- _ => destruct H end ];
  subst;
  try lazymatch goal with
  | |- match ?r with _ => _ end => destruct r as [?a| ?e| ?msg]
  end;
  try lazymatch goal with
  | H : returns (Panic _) |- _ => destruct H
  end.

Section ChangesOfRun.
Context `{C : Collaborators}.

Lemma reparentShardLocked_guarded ks sh opts st pre :
  (∀ x, Rpc_PromoteReplica x ∉ pre) →
  wp (reparentShardLocked ks sh opts) st (λ r s t, each_guarded pre t).
Proof.
  intros Hpre. unfold reparentShardLocked.
  repeat first [wp_step | wp_part_changes].
  all: repeat match goal with
       | x : Result Tablet |- _ => destruct x
       | H : returns (Panic _) |- _ => destruct H
       | H : ∀ a, Ok ?b = Ok a → _ |- _ => specialize (H _ eq_refl)
       end.
  all: unfold identify_trace; cbn.
  all: guarded_walk ltac:(idtac; guarded_part).
Qed.

End ChangesOfRun.

Section ChangesOfOperation.
Context `{C : Collaborators}.

Lemma ReparentShard_guarded ks sh opts st :
  each_guarded [] (trace (ReparentShard ks sh opts st)).
Proof.
  destruct (lock_result ks sh opts st).1 as [lockErr|] eqn:Hlock.
  - rewrite (ReparentShard_not_locked _ _ _ _ _ Hlock). by split.
  - rewrite (ReparentShard_locked _ _ _ _ Hlock). cbn [trace].
    split; [exact I|]. apply each_guarded_app.
    + apply reparentShardLocked_guarded. intros x Hin.
      apply list_elem_of_singleton in Hin. discriminate.
    + apply each_guarded_quiet.
      destruct (err_of _); simpl; repeat (apply Forall_cons_2; [by intros []|]);
        apply Forall_nil_2.
Qed.

(** X5: no tablet is changed before the ground is prepared.  Every call
    that changes a tablet (SetMaster on a replica, PromoteReplica, the write
    of the reparent journal) comes after replication has been stopped, after
    waitForAllRelayLogsToApply and findMostAdvanced have returned without
    error, and after the shard lock has been checked twice. *)
Theorem tablet_changes_follow_preparation ks sh opts st t1 e t2 :
  trace (ReparentShard ks sh opts st) = t1 ++ e :: t2 →
  changes_tablet e →
  prepared t1.
Proof.
  intros Heq He.
  pose proof (each_guarded_split [] _ t1 e t2 (ReparentShard_guarded ks sh opts st) Heq)
    as Hg.
  destruct e; simpl in *; try done; by destruct Hg.
Qed.

(** X6: at most one tablet is promoted in a run, and only after the
    constraint check: PromoteReplica is called at most once, on a tablet
    that has passed checkIfConstraintsSatisfied, or, after the check has
    failed, on the previous primary. *)
Theorem promotion_once_after_constraint_check ks sh opts st t1 np t2 :
  trace (ReparentShard ks sh opts st) = t1 ++ Rpc_PromoteReplica np :: t2 →
  checked np t1 ∧
  (∀ x, Rpc_PromoteReplica x ∉ t1) ∧ (∀ x, Rpc_PromoteReplica x ∉ t2).
Proof.
  intros Heq.
  pose proof (ReparentShard_guarded ks sh opts st) as Hall.
  destruct (each_guarded_split [] _ t1 _ t2 Hall Heq) as (_ & Hck & Hno).
  split; [done|]. split; [done|].
  intros x Hin. apply list_elem_of_split in Hin as (u1 & u2 & ->).
  assert (trace (ReparentShard ks sh opts st) =
          (t1 ++ Rpc_PromoteReplica np :: u1) ++ Rpc_PromoteReplica x :: u2) as Heq'
    by (by rewrite Heq, <- app_assoc).
  destruct (each_guarded_split [] _ _ _ _ Hall Heq') as (_ & _ & Hno').
  apply (Hno' np). simpl. apply elem_of_app. right. apply list_elem_of_here.
Qed.

(** X7: the reparent journal is written only on the tablet that has been
    promoted: every PopulateReparentJournal call is made on a tablet on which
    PromoteReplica has been called before, and whose position has been read
    with MasterPosition before. *)
Theorem journal_only_on_promoted ks sh opts st t1 x t2 :
  trace (ReparentShard ks sh opts st) = t1 ++ Rpc_PopulateReparentJournal x :: t2 →
  Rpc_PromoteReplica x ∈ t1 ∧ Rpc_MasterPosition x ∈ t1.
Proof.
  intros Heq.
  by destruct (each_guarded_split [] _ t1 _ t2 (ReparentShard_guarded ks sh opts st) Heq)
    as (_ & ? & ?).
Qed.

(** X8: the catch-up is awaited only for another tablet, once the
    replicas follow the intermediate source.  waitForCatchUp is called only
    when the candidate selected has another alias than the intermediate
    source, and only after reparentReplicas for the intermediate source, with
    waitForAllReplicas and without the journal, has returned without
    error. *)
Theorem catch_up_follows_intermediate_reparent ks sh opts st t1 source target t2 :
  trace (ReparentShard ks sh opts st) = t1 ++ Call_waitForCatchUp source target :: t2 →
  Alias target ≠ Alias source ∧
  Return_ (F_reparentReplicas source true false) None ∈ t1.
Proof.
  intros Heq.
  exact (each_guarded_split [] _ t1 _ t2 (ReparentShard_guarded ks sh opts st) Heq).
Qed.

End ChangesOfOperation.
(** ** The replicas that reparentReplicas reparents *)

Section Replicas.
Context `{C : Collaborators}.

(** The SetMaster calls of a trace: the tablet called and the parent that
    it is given. *)
Definition set_masters (t : list Event) : list (Tablet * TabletAlias) :=
  omap (λ e, match e with Rpc_SetMaster x p _ => Some (x, p) | _ => None end) t.

(** One SetMaster call, with the new primary as parent, on each tablet of
    [q]. *)
Definition reparented (np : Tablet) (q : list (string * TabletInfo))
    : list (Tablet * TabletAlias) :=
  (λ g, (TI_Tablet g.2, Alias np)) <$> q.

Lemma set_masters_app t1 t2 : set_masters (t1 ++ t2) = set_masters t1 ++ set_masters t2.
Proof. apply omap_app. Qed.

Lemma set_masters_primary t : Forall ev_primary t → set_masters t = [].
Proof.
  induction 1 as [|e t He _ IH]; [done|]. destruct e; simpl in *; done.
Qed.

Lemma handleReplica_targets np sm wait g v st :
  wp (handleReplica np sm wait g v) st (λ r s t,
    (∃ v', r = Ok v') ∧ sublist (set_masters t) (reparented np [g])).
Proof.
  unfold handleReplica.
  repeat wp_step; (split; [by eauto|]); simpl; first [apply sublist_nil_l|done].
Qed.

Lemma run_goroutines_targets np sm wait q v st :
  wp (run_goroutines (handleReplica np sm wait) q v) st (λ r s t,
    (∃ v', r = Ok v') ∧ sublist (set_masters t) (reparented np q)).
Proof.
  revert v st. induction q as [|g q IH]; intros v st; simpl.
  - wp_step. split; [by eauto|done].
  - wp_step. wp_use handleReplica_targets. destruct H as [[v1 ->] H1].
    wp_use IH. destruct H as [[v2 ->] H2]. split; [by eauto|].
    rewrite set_masters_app. by apply (sublist_app _ (reparented np [g])).
Qed.

Lemma select_wait_targets np sm wait q v st :
  wp (select_wait np sm wait q v) st (λ r s t,
    (∃ cv, r = Ok cv) ∧ sublist (set_masters t) (reparented np q)).
Proof.
  revert v st. induction q as [|g q IH]; intros v st; simpl.
  - repeat wp_step; (split; [by eauto|done]).
  - wp_step.
    assert (∀ wake : bool,
      wp (if wake then ret (ReplSuccessDone, v)
          else bind (handleReplica np sm wait g v) (λ v', select_wait np sm wait q v')) st
         (λ r s t, (∃ cv, r = Ok cv) ∧
                   sublist (set_masters t) (reparented np (g :: q)))) as Hwake.
    { intros [|].
      - wp_step. split; [by eauto|apply sublist_nil_l].
      - wp_step. wp_use handleReplica_targets. destruct H as [[v1 ->] H1].
        wp_use IH. destruct H as [[cv ->] H2]. split; [by eauto|].
        rewrite set_masters_app. by apply (sublist_app _ (reparented np [g])). }
    destruct (replSuccessCtx_Done v); wp_step; [exact (Hwake a)|exact (Hwake false)].
Qed.

Lemma reparentReplicas_select_targets np tm sm opts wait populate st :
  wp (reparentReplicas_select np tm sm opts wait populate) st (λ r s t,
    set_masters t ⊆+ reparented np (fanout np tm opts)).
Proof.
  unfold reparentReplicas_select. wp_step. wp_step. wp_step. wp_step.
  apply wp_bind, wp_ask_exact. cbn [world set_world]. cbv beta iota.
  set (queue := sched_order _ w (fanout np tm opts)).
  assert (queue ≡ₚ fanout np tm opts) as Hperm by apply sched_order_perm.
  clearbody queue. wp_step. wp_step. wp_step.
  wp_use run_goroutines_targets. destruct H as [[v1 ->] H1].
  wp_step. wp_step. wp_use handlePrimary_spec. destruct H as (_ & Hr & Hp).
  apply set_masters_primary in Hp.
  unfold reparented in *.
  assert (sublist (set_masters t) ((λ g, (TI_Tablet g.2, Alias np)) <$> queue)) as Hearly.
  { rewrite <- (take_drop a0 queue), fmap_app. by apply sublist_inserts_r. }
  destruct r as [[]|e|msg]; [| |done].
  - wp_step. wp_use select_wait_targets. destruct H as [[cv ->] H2].
    repeat wp_step. rewrite <- Hperm. apply sublist_submseteq.
    rewrite !set_masters_app, Hp. simpl. rewrite ?set_masters_app. simpl.
    rewrite ?app_nil_r. rewrite <- (take_drop a0 queue), fmap_app.
    by apply sublist_app.
  - repeat wp_step. rewrite <- Hperm. apply sublist_submseteq.
    rewrite !set_masters_app, Hp. simpl. by rewrite app_nil_r.
Qed.

(** X9: reparentReplicas reparents each replica at most once, and only the
    replicas.  Its SetMaster calls are made, at most one each, on the tablets
    of the tablet map whose key is neither the alias of the new primary nor
    in IgnoreReplicas, and every one of them names the new primary as
    parent. *)
Theorem replicas_reparented_once np tm sm opts wait populate st :
  let O := reparentReplicas np tm sm opts wait populate st in
  set_masters (trace O) ⊆+ reparented np (fanout np tm opts) ∧
  ∀ x parent forceStart,
    Rpc_SetMaster x parent forceStart ∈ trace O →
    parent = Alias np ∧
    ∃ alias ti, tm !! alias = Some ti ∧ TI_Tablet ti = x ∧
                alias ≠ TabletAliasString (Alias np) ∧ alias ∉ IgnoreReplicas opts.
Proof.
  cbv zeta.
  assert (set_masters (trace (reparentReplicas np tm sm opts wait populate st))
          ⊆+ reparented np (fanout np tm opts)) as Hsub.
  { change (wp (reparentReplicas np tm sm opts wait populate) st (λ r s t,
              set_masters t ⊆+ reparented np (fanout np tm opts))).
    unfold reparentReplicas. wp_step. wp_step.
    wp_use reparentReplicas_select_targets.
    destruct r; [|by simpl; rewrite set_masters_app, app_nil_r..].
    wp_use reparentReplicas_return_spec. destruct H0 as (-> & Hr & ->).
    simpl. rewrite !set_masters_app, app_nil_r.
    destruct r; simpl; by rewrite app_nil_r. }
  split; [done|]. intros x parent forceStart Hin.
  assert ((x, parent) ∈ set_masters (trace (reparentReplicas np tm sm opts wait populate st)))
    as Hin'.
  { apply list_elem_of_omap. by exists (Rpc_SetMaster x parent forceStart). }
  apply (elem_of_submseteq _ _ _ Hin') in Hsub.
  apply list_elem_of_fmap in Hsub as ([alias ti] & [= -> ->] & Hg).
  apply list_elem_of_filter in Hg as [[Hnp Hign] Hg]. simpl in *.
  apply elem_of_map_to_list in Hg. split; [done|]. by exists alias, ti.
Qed.

End Replicas.
(** ** reparentReplicas, whichever signal ends its wait *)

Section Outcome.
Context `{C : Collaborators}.

(** The first-success signal is up only when reparentReplicas does not wait
    for all the replicas, and then a replica has started replication. *)
Definition signalled (wait : bool) (v : ReplicaVars) : Prop :=
  replSuccessCtx_Done v = true → wait = false ∧ replicasStartedReplication v ≠ [].

(** What the goroutines of [q] have done, and the signal with it. *)
Definition goroutines_ran (wait : bool) (q : list (string * TabletInfo))
    (v v' : ReplicaVars) (t : list Event) : Prop :=
  goroutines_done wait q v v' t ∧ (signalled wait v → signalled wait v').

Lemma handleReplica_signalled np sm wait g v st :
  wp (handleReplica np sm wait g v) st
     (λ r s t, ∀ v', r = Ok v' → signalled wait v → signalled wait v').
Proof.
  unfold handleReplica, signalled.
  repeat wp_step; intros v' [= <-] Hv; simpl; try done.
  destruct wait; simpl; intros Hd.
  - destruct (Hv Hd) as [? _]. done.
  - split; [done|]. by destruct (replicasStartedReplication v).
Qed.

Lemma handleReplica_ran np sm wait g v st :
  wp (handleReplica np sm wait g v) st
     (λ r s t, ∃ v', r = Ok v' ∧ goroutines_ran wait [g] v v' t).
Proof.
  eapply wp_conseq;
    [exact (wp_and _ _ _ _ (handleReplica_done np sm wait g v st)
                            (handleReplica_signalled np sm wait g v st))|].
  intros r s t [(v' & -> & Hd) Hs]. exists v'. split; [done|]. split; [done|].
  by apply Hs.
Qed.

Lemma goroutines_ran_cons wait g q v v1 v2 t1 t2 :
  goroutines_ran wait [g] v v1 t1 → goroutines_ran wait q v1 v2 t2 →
  goroutines_ran wait (g :: q) v v2 (t1 ++ t2).
Proof.
  intros [H1 S1] [H2 S2]. split; [by eapply goroutines_done_cons|auto].
Qed.

Lemma goroutines_ran_nil wait v : goroutines_ran wait [] v v [].
Proof. split; [apply goroutines_done_nil|done]. Qed.

Lemma goroutines_ran_app wait q1 q2 v v1 v2 t1 t2 :
  goroutines_ran wait q1 v v1 t1 → goroutines_ran wait q2 v1 v2 t2 →
  goroutines_ran wait (q1 ++ q2) v v2 (t1 ++ t2).
Proof.
  intros [H1 S1] [H2 S2]. split; [by eapply goroutines_done_app|auto].
Qed.

Lemma goroutines_ran_quiet wait q v v' t t0 :
  quiet t0 → goroutines_ran wait q v v' t → goroutines_ran wait q v v' (t0 ++ t).
Proof. intros Hq [H S]. split; [by apply goroutines_done_quiet|done]. Qed.

Lemma run_goroutines_ran np sm wait q v st :
  wp (run_goroutines (handleReplica np sm wait) q v) st
     (λ r s t, ∃ v', r = Ok v' ∧ goroutines_ran wait q v v' t).
Proof.
  revert v st. induction q as [|g q IH]; intros v st; simpl.
  - wp_step. eexists. split; [done|]. apply goroutines_ran_nil.
  - wp_step. wp_use handleReplica_ran. destruct H as (v1 & -> & H1).
    wp_use IH. destruct H as (v2 & -> & H2).
    eexists. split; [done|]. by eapply goroutines_ran_cons.
Qed.

(** The main goroutine in [select]: the goroutines of a first part [q1] of
    the queue have run when it returns; it takes the case of all the
    replicas done only when none is left, and the case of the first success
    only when the signal is up. *)
Lemma select_wait_any np sm wait q v st :
  wp (select_wait np sm wait q v) st (λ r s t,
    ∃ c v' q1 q2, r = Ok (c, v') ∧ q = q1 ++ q2 ∧ goroutines_ran wait q1 v v' t ∧
      match c with
      | AllReplicasDone => q2 = []
      | ReplSuccessDone => replSuccessCtx_Done v' = true
      end).
Proof.
  revert v st. induction q as [|g q IH]; intros v st; simpl.
  - destruct (replSuccessCtx_Done v) eqn:Hv; repeat wp_step.
    + exists a, v, [], []. split; [done|]. split; [done|].
      split; [apply goroutines_ran_nil|]. by destruct a.
    + exists AllReplicasDone, v, [], []. split; [done|]. split; [done|].
      split; [apply goroutines_ran_nil|done].
  - assert (wp (bind (handleReplica np sm wait g v)
                     (λ v', select_wait np sm wait q v')) st (λ r s t,
              ∃ c v' q1 q2, r = Ok (c, v') ∧ g :: q = q1 ++ q2 ∧
                goroutines_ran wait q1 v v' t ∧
                match c with
                | AllReplicasDone => q2 = []
                | ReplSuccessDone => replSuccessCtx_Done v' = true
                end)) as Hrun.
    { wp_step. wp_use handleReplica_ran. destruct H as (v1 & -> & H1).
      wp_use IH. destruct H as (c & v2 & q1 & q2 & -> & -> & H2 & Hc).
      exists c, v2, (g :: q1), q2. split; [done|]. split; [done|].
      split; [by eapply goroutines_ran_cons|done]. }
    destruct (replSuccessCtx_Done v) eqn:Hv; wp_step; wp_step; [|exact Hrun].
    destruct a; [|exact Hrun].
    wp_step. exists ReplSuccessDone, v, [], (g :: q). split; [done|].
    split; [done|]. split; [apply goroutines_ran_nil|done].
Qed.

Lemma reparentReplicas_select_any np tm sm opts wait populate st :
  wp (reparentReplicas_select np tm sm opts wait populate) st (λ r s t,
    match r with
    | Ok (n, c, v) =>
        n = length (fanout np tm opts) ∧ (primary_failed ∉ t) ∧
        Select c ∈ t ∧ (∀ c', Select c' ∈ t → c' = c) ∧
        rec_Errors v = recorded_errors t ∧
        match c with
        | AllReplicasDone => (length (rec_Errors v) ≤ n)%nat
        | ReplSuccessDone => wait = false ∧ (length (rec_Errors v) < n)%nat
        end
    | Err e => primary_failed ∈ t ∧ ∀ c, Select c ∉ t
    | Panic _ => False
    end).
Proof.
  unfold reparentReplicas_select. wp_step. wp_step. wp_step. wp_step.
  apply wp_bind, wp_ask_exact. cbn [world set_world]. cbv beta iota.
  set (queue := sched_order _ w (fanout np tm opts)).
  assert (queue ≡ₚ fanout np tm opts) as Hperm by apply sched_order_perm.
  clearbody queue. wp_step. wp_step. wp_step.
  wp_use run_goroutines_ran. destruct H as (v1 & -> & H1).
  wp_step. wp_step. wp_use handlePrimary_quiet. destruct H as (Hr & Hq).
  destruct r as [[]|e|msg]; [| |done].
  - wp_step. wp_use select_wait_any.
    destruct H as (c & v2 & q1 & q2 & -> & Hsplit & H2 & Hc).
    wp_step. wp_step. wp_step. simpl.
    pose proof (goroutines_ran_app _ _ _ _ _ _ _ _ H1
                  (goroutines_ran_quiet _ _ _ _ _ _ Hq H2)) as [Hall Hsig].
    destruct Hall as (_ & He & Hp & Hs & ok & Hsub & Hst & Hlen). simpl in *.
    assert (length (take a0 queue ++ q1) ≤ length (fanout np tm opts))%nat as Hle.
    { pose proof (f_equal length (take_drop a0 queue)) as Hl.
      rewrite Hsplit, !length_app in Hl. rewrite <- Hperm, length_app. lia. }
    split; [done|]. split.
    { intros Hin. apply elem_of_cons in Hin as [Hin|Hin]; [discriminate|].
      rewrite !app_assoc in Hin. apply elem_of_app in Hin as [Hin|Hin].
      - rewrite <- !app_assoc in Hin. done.
      - apply list_elem_of_singleton in Hin. discriminate. }
    split; [apply list_elem_of_further; rewrite !app_assoc; apply elem_of_app; right;
            apply list_elem_of_here|].
    split.
    { intros c' Hin. apply elem_of_cons in Hin as [Hin|Hin]; [discriminate|].
      rewrite !app_assoc in Hin. apply elem_of_app in Hin as [Hin|Hin].
      - rewrite <- !app_assoc in Hin. by destruct (Hs c').
      - apply list_elem_of_singleton in Hin. by simplify_eq. }
    split.
    { rewrite He, !recorded_errors_app. simpl. by rewrite app_nil_r. }
    rewrite He. destruct c; [|lia].
    destruct Hsig as [Hw Hne]; [done|done|]. split; [done|].
    rewrite Hst in Hne. destruct ok; [done|]. simpl in Hlen. lia.
  - repeat wp_step. simpl. split.
    + apply list_elem_of_further. rewrite !app_assoc. apply elem_of_app. right.
      apply list_elem_of_here.
    + intros c Hin. apply elem_of_cons in Hin as [Hin|Hin]; [discriminate|].
      destruct H1 as [(_ & _ & _ & Hs1 & _) _]. destruct Hq as (_ & _ & Hsq).
      apply elem_of_app in Hin as [Hin|Hin]; [by apply (Hs1 c)|].
      apply elem_of_app in Hin as [Hin|Hin]; [by apply (Hsq c)|].
      apply list_elem_of_singleton in Hin. discriminate.
Qed.

(** X10: reparentReplicas, whether or not it waits for all the replicas,
    fails only when everything failed.  When the step on the primary does not
    fail, it returns an error only if its select took the case of all the
    replicas done and every replica goroutine has recorded an error, and it
    does return one then, provided there is a replica at all; when the select
    takes the case of the first success, which happens only without
    waitForAllReplicas, it returns the nil slice and no error, and fewer
    errors than replicas have been recorded. *)
Theorem reparentReplicas_fails_only_if_all_failed np tm sm opts wait populate st :
  primary_failed ∉ trace (reparentReplicas np tm sm opts wait populate st) →
  let O := reparentReplicas np tm sm opts wait populate st in
  let numReplicas := length (fanout np tm opts) in
  let errors := recorded_errors (trace O) in
  ((∃ e, result O = Err e) →
   Select AllReplicasDone ∈ trace O ∧ length errors = numReplicas) ∧
  (Select AllReplicasDone ∈ trace O → length errors = numReplicas →
   numReplicas ≠ 0 → ∃ e, result O = Err e) ∧
  (Select ReplSuccessDone ∈ trace O →
   wait = false ∧ result O = Ok [] ∧ (length errors < numReplicas)%nat) ∧
  (length errors ≤ numReplicas)%nat.
Proof.
  cbv zeta.
  cut (wp (reparentReplicas np tm sm opts wait populate) st (λ r s t,
         primary_failed ∉ t →
         ((∃ e, r = Err e) ↔
          Select AllReplicasDone ∈ t ∧
          length (recorded_errors t) = length (fanout np tm opts)) ∧
         (Select ReplSuccessDone ∈ t →
          wait = false ∧ r = Ok [] ∧
          (length (recorded_errors t) < length (fanout np tm opts))%nat) ∧
         (length (recorded_errors t) ≤ length (fanout np tm opts))%nat)).
  { unfold wp. intros Hwp Hnot. destruct (Hwp Hnot) as ([H1 H2] & H3 & H4).
    split; [exact H1|]. split; [by auto|]. split; [exact H3|exact H4]. }
  unfold reparentReplicas. wp_step. wp_step.
  wp_use reparentReplicas_select_any. destruct r as [[[n c] v]|e|msg]; [| |done].
  - destruct H as (-> & Hp & Hsel & Huniq & He & Hc).
    assert (∀ c' r', Select c' ∈ Enter (F_reparentReplicas np wait populate) ::
                       t ++ [Return_ (F_reparentReplicas np wait populate) r'] →
                     c' = c) as Huniq'.
    { intros c' r' Hin. apply elem_of_cons in Hin as [Hin|Hin]; [discriminate|].
      apply elem_of_app in Hin as [Hin|Hin]; [by apply Huniq|].
      apply list_elem_of_singleton in Hin. discriminate. }
    assert (∀ r', Select c ∈ Enter (F_reparentReplicas np wait populate) ::
                    t ++ [Return_ (F_reparentReplicas np wait populate) r'])
      as Hsel'.
    { intros r'. apply list_elem_of_further, elem_of_app. by left. }
    unfold reparentReplicas_return. cbn [fst snd]. rewrite He in *.
    destruct c.
    + destruct Hc as [Hw Hlt]. wp_step. intros _.
      rewrite recorded_errors_traced, app_nil_r.
      split; [|split; [done|lia]]. split; [by intros [? ?]|].
      intros [Hin _]. by apply Huniq' in Hin.
    + case_bool_decide; [lia|].
      case_bool_decide as Hall; wp_step; intros _;
        rewrite recorded_errors_traced, app_nil_r.
      * split; [|split; [|lia]].
        -- split; [intros _; split; [apply Hsel'|done]|intros _; by eexists].
        -- intros Hin. by apply Huniq' in Hin.
      * split; [|split; [|lia]].
        -- split; [by intros [? ?]|by intros [_ ?]].
        -- intros Hin. by apply Huniq' in Hin.
  - destruct H as [Hin _]. intros Hnot. exfalso. apply Hnot.
    apply list_elem_of_further, elem_of_app. by left.
Qed.

End Outcome.
(** ** The wait for the relay logs *)

Section RelayLogs.
Context `{C : Collaborators}.

(** The tablets on which a trace waits for the relay logs. *)
Definition relay_waits (t : list Event) : list string :=
  omap (λ e, match e with Call_WaitForRelayLogsToApply a => Some a | _ => None end) t.

(** The candidates that were replicating: those with an entry in the status
    map. *)
Definition replicating (sm : gmap string StopReplicationStatus)
    (candidates : list (string * Position)) : list string :=
  (filter (λ c, is_Some (sm !! c.1)) candidates).*1.

Lemma relay_waits_app t1 t2 : relay_waits (t1 ++ t2) = relay_waits t1 ++ relay_waits t2.
Proof. apply omap_app. Qed.

Lemma start_waiters_names sm l st :
  wp (start_waiters sm l) st (λ r s t,
    ∃ ws, r = Ok ws ∧ ws.*1 = replicating sm l ∧ relay_waits t = []).
Proof.
  unfold replicating. induction l as [|c l IH]; simpl.
  - wp_step. by exists [].
  - destruct (sm !! c.1) eqn:Hc.
    + wp_step. wp_use IH. destruct H as (ws & -> & Hws & Ht). wp_step.
      eexists. split; [done|]. rewrite filter_cons_True by (by rewrite Hc).
      rewrite !fmap_cons, Hws, app_nil_r. done.
    + wp_step. wp_step. wp_use IH. destruct H as (ws & -> & Hws & Ht).
      exists ws. split; [done|]. rewrite filter_cons_False by (rewrite Hc; by intros [? ?]).
      done.
Qed.

Lemma relay_log_waiters_names tm q errCh st :
  wp (run_goroutines (relay_log_waiter tm) q errCh) st (λ r s t,
    ∃ errCh', r = Ok errCh' ∧ relay_waits t = q.*1 ∧
              length errCh' = length errCh + length q).
Proof.
  revert errCh st. induction q as [|g q IH]; intros errCh st; simpl.
  - wp_step. exists errCh. split; [done|]. split; [done|lia].
  - unfold relay_log_waiter at 1. do 4 wp_step.
    all: wp_step; wp_use IH; destruct H as (errCh' & -> & Ht & Hlen).
    all: exists errCh'; split; [done|]; simpl; rewrite Ht.
    all: split; [done|]; rewrite length_app in Hlen; simpl in Hlen; lia.
Qed.

(** X11: the relay logs are awaited on the candidates that were
    replicating, once each.  waitForAllRelayLogsToApply calls
    WaitForRelayLogsToApply once for every valid candidate that has an entry
    in the status map and for no other tablet; a candidate without an entry,
    such as the former primary, is skipped; and when there is none to wait
    for it returns without error. *)
Theorem relay_logs_awaited_where_replicating vc tm sm timeout st :
  let O := waitForAllRelayLogsToApply vc tm sm timeout st in
  relay_waits (trace O) ≡ₚ replicating sm (map_to_list vc) ∧
  NoDup (relay_waits (trace O)) ∧
  (∀ a, a ∈ relay_waits (trace O) ↔ is_Some (vc !! a) ∧ is_Some (sm !! a)) ∧
  (replicating sm (map_to_list vc) = [] → result O = Ok tt) ∧
  (∀ msg, result O ≠ Panic msg).
Proof.
  cbv zeta.
  assert (NoDup (replicating sm (map_to_list vc))) as Hnodup.
  { unfold replicating.
    eapply sublist_NoDup; [apply (NoDup_fst_map_to_list vc)|].
    apply fmap_sublist, sublist_filter. }
  assert (∀ a, a ∈ replicating sm (map_to_list vc) ↔
               is_Some (vc !! a) ∧ is_Some (sm !! a)) as Hmem.
  { intros a. unfold replicating. rewrite list_elem_of_fmap. split.
    - intros ([a' p] & -> & Hin). apply list_elem_of_filter in Hin as [Hs Hin].
      apply elem_of_map_to_list in Hin. simpl in *. by eauto.
    - intros [[p Hp] Hs]. exists (a, p). split; [done|].
      apply list_elem_of_filter. split; [done|]. by apply elem_of_map_to_list. }
  cut (wp (waitForAllRelayLogsToApply vc tm sm timeout) st (λ r s t,
         relay_waits t ≡ₚ replicating sm (map_to_list vc) ∧
         (replicating sm (map_to_list vc) = [] → r = Ok tt) ∧
         (∀ msg, r ≠ Panic msg))).
  { unfold wp. intros (Hperm & Hnone & Hret).
    split; [done|]. split; [by rewrite Hperm|]. split; [|done].
    intros a. by rewrite Hperm. }
  unfold waitForAllRelayLogsToApply. wp_step. wp_step.
  wp_use start_waiters_names. destruct H as (ws & -> & Hws & Ht).
  wp_step. apply wp_ask_exact. cbn [world]. cbv beta iota.
  set (queue := sched_order _ (world s) ws).
  assert (queue ≡ₚ ws) as Hperm by apply sched_order_perm.
  clearbody queue. wp_step.
  wp_use relay_log_waiters_names. destruct H as (errCh & -> & Ht0 & Hlen).
  assert (replicating sm (map_to_list vc) = [] → errCh = []) as Hempty.
  { intros Hnone. rewrite Hnone in Hws. apply fmap_nil_inv in Hws. subst ws.
    apply Permutation_nil_r in Hperm. subst queue. by destruct errCh. }
  cbv zeta. case_bool_decide as Herr; wp_step; simpl.
  all: rewrite !relay_waits_app, Ht, Ht0; simpl; rewrite ?app_nil_r.
  all: split; [by rewrite Hperm, Hws|]; split; [|done].
  - intros Hnone. exfalso. apply Herr. by rewrite (Hempty Hnone).
  - done.
Qed.

End RelayLogs.
(** ** The selection without a requested primary *)

Section Preference.
Context `{C : Collaborators}.

(** The loop of identifyPrimaryCandidate puts the candidates whose rule is
    MUST or PREFER in the first list, those whose rule is NEUTRAL in the
    second, and the others in none. *)
Lemma classify_candidate_step acc x c :
  (c ∈ (classify_candidate acc x).1 ↔
   c ∈ acc.1 ∨ (c = x ∧ (PromotionRule c = MustPromoteRule ∨
                          PromotionRule c = PreferPromoteRule))) ∧
  (c ∈ (classify_candidate acc x).2 ↔
   c ∈ acc.2 ∨ (c = x ∧ PromotionRule c = NeutralPromoteRule)).
Proof.
  unfold classify_candidate.
  destruct (PromotionRule x) eqn:Hx; simpl;
    rewrite ?elem_of_app, ?list_elem_of_singleton.
  all: split; split; intros H; destruct_or?; destruct_and?; subst; eauto.
  all: try congruence.
  all: try (destruct_or?; congruence).
Qed.

Lemma classify_candidates l acc c :
  (c ∈ (fold_left classify_candidate l acc).1 ↔
   c ∈ acc.1 ∨ (c ∈ l ∧ (PromotionRule c = MustPromoteRule ∨
                          PromotionRule c = PreferPromoteRule))) ∧
  (c ∈ (fold_left classify_candidate l acc).2 ↔
   c ∈ acc.2 ∨ (c ∈ l ∧ PromotionRule c = NeutralPromoteRule)).
Proof.
  revert acc. induction l as [|x l IH]; intros acc; simpl.
  - split; (split; [by left|intros [?|[?%elem_of_nil _]]; done]).
  - destruct (IH (classify_candidate acc x)) as [IH1 IH2].
    destruct (classify_candidate_step acc x c) as [S1 S2].
    rewrite IH1, IH2, S1, S2, !elem_of_cons. split; split; intros H;
      destruct_or?; destruct_and?; subst; eauto.
    all: destruct_or?; eauto.
Qed.

(** X12: without a requested primary the selection never fails, and it
    returns the intermediate source or a valid candidate whose promotion rule
    is MUST, PREFER or NEUTRAL, provided the candidate that
    findPossibleCandidateFromListWithRestrictions returns is one of the list
    it is given.  If moreover a candidate that it returns when it is asked to
    check the cell is in the cell of the previous primary, then with
    PreventCrossCellPromotion the selection returns the intermediate source
    or a tablet of that cell. *)
Theorem candidate_without_request np prev l tm opts st :
  NewPrimaryAlias opts = None →
  (∀ l' a b c,
     findPossibleCandidateFromListWithRestrictions np prev l' a b = Some c → c ∈ l') →
  ∃ c, result (identifyPrimaryCandidate np prev l tm opts st) = Ok c ∧
       (c = np ∨
        (c ∈ l ∧ PromotionRule c ≠ PreferNotPromoteRule ∧
         PromotionRule c ≠ MustNotPromoteRule)) ∧
       ((∀ l' a c' p, prev = Some p →
           findPossibleCandidateFromListWithRestrictions np prev l' a true = Some c' →
           Cell (Alias c') = Cell (Alias p)) →
        PreventCrossCellPromotion opts = true →
        ∀ p, prev = Some p → c = np ∨ Cell (Alias c) = Cell (Alias p)).
Proof.
  intros Hreq Hfind. unfold identifyPrimaryCandidate. rewrite result_traced, Hreq.
  cbv zeta.
  set (lists := fold_left classify_candidate l ([], [])).
  pose proof (λ c, classify_candidates l ([], []) c) as Hlists. fold lists in Hlists.
  set (find := findPossibleCandidateFromListWithRestrictions np prev) in *.
  assert (∀ a b c, find lists.1 a b = Some c ∨ find lists.2 a b = Some c →
                   c ∈ l ∧ PromotionRule c ≠ PreferNotPromoteRule ∧
                   PromotionRule c ≠ MustNotPromoteRule) as Hin.
  { intros a b c [Hc|Hc]; apply Hfind in Hc.
    - apply (proj1 (Hlists c)) in Hc as [?%elem_of_nil|[? [Hr|Hr]]]; [done|..];
        rewrite Hr; done.
    - apply (proj2 (Hlists c)) in Hc as [?%elem_of_nil|[? Hr]]; [done|].
      rewrite Hr. done. }
  clearbody lists.
  set (chosen := or_else _ _).
  exists (default np chosen). split; [done|].
  assert (chosen = None ∨ ∃ c, chosen = Some c ∧
            (∃ a b, find lists.1 a b = Some c ∨ find lists.2 a b = Some c) ∧
            (PreventCrossCellPromotion opts = true →
             ∃ a, find lists.1 a true = Some c ∨ find lists.2 a true = Some c))
    as [->|(c & -> & (a & b & Hc) & Hcell)].
  { unfold chosen, or_else.
    repeat match goal with
           | |- context [match find ?x ?a ?b with _ => _ end] =>
               let H := fresh "H" in
               destruct (find x a b) as [?c|] eqn:H;
               [right; eexists; split; [done|]; split; [by eauto|intros _; by eauto]|]
           | |- context [if negb ?b then _ else _] =>
               let H := fresh "H" in
               destruct b eqn:H; simpl
           | |- context [match find ?x ?a ?b with _ => _ end] =>
               let H := fresh "H" in
               destruct (find x a b) as [?c|] eqn:H;
               [right; eexists; split; [done|]; split; [by eauto|intros ?; done]|]
           end.
    all: try by left.
    all: match goal with
         | |- ?x = None ∨ _ =>
             destruct x as [?c|] eqn:?;
             [right; eexists; split; [done|]; split;
              [by eauto|first [intros _; by eauto|intros ?; done]]
             |by left]
         end. }
  - simpl. split; [by left|]. intros _ _ p _. by left.
  - simpl. split; [right; by eapply Hin|].
    intros Hsame Hp p ->. right. destruct (Hcell Hp) as [a' [Hc'|Hc']];
      by eapply Hsame.
Qed.

End Preference.
(** ** No index out of range *)

Section Bounds.
Context `{C : Collaborators}.

(** getValidCandidatesAndPositionsAsList returns one tablet and one position
    for every valid candidate. *)
Definition lists_every_candidate : Prop :=
  ∀ vc tm lists,
    getValidCandidatesAndPositionsAsList vc tm = inr lists →
    length lists.1 = size vc ∧ length lists.2 = size vc.

Lemma check_split_brain_in_range w p ts i ps st :
  (i + length ps ≤ length ts)%nat →
  returns (result (check_split_brain w p ts i ps st)).
Proof.
  revert i. induction ps as [|q ps IH]; intros i Hlen; simpl in *; [done|].
  destruct (AtLeast p q); simpl.
  - apply IH. lia.
  - destruct (lookup_lt_is_Some_2 ts i) as [other Hother]; [lia|].
    unfold bind, index. by rewrite Hother.
Qed.

(** With a candidate to choose from, findMostAdvanced indexes its slices
    within their bounds. *)
Lemma findMostAdvanced_in_range prev vc tm opts st :
  lists_every_candidate → size vc ≠ 0 →
  wp (findMostAdvanced prev vc tm opts) st (λ r s t,
    s = st ∧ Forall ev_find t ∧ returns r).
Proof.
  intros Hlists Hsize.
  cut (returns (result (findMostAdvanced prev vc tm opts st))).
  { intros Hr. pose proof (findMostAdvanced_spec prev vc tm opts st) as Hspec.
    unfold wp in *. by destruct Hspec. }
  unfold findMostAdvanced. rewrite result_traced.
  erewrite result_bind; [|done].
  destruct (getValidCandidatesAndPositionsAsList vc tm) as [err|lists] eqn:Hl; [done|].
  destruct (Hlists _ _ _ Hl) as [Hts Hps].
  erewrite result_bind; [|done]. cbv zeta.
  pose proof (sortTabletsForERS_length lists.1 lists.2
                match prev with Some p => Cell (Alias p) | None => "" end) as [Hts' Hps'].
  destruct (sortTabletsForERS _ _ _) as [[err|] [ts ps]]; [done|]. cbn [fst snd] in *.
  erewrite result_bind; [|apply for_each_log].
  destruct ts as [|w ts]; [simpl in *; lia|].
  destruct ps as [|p ps]; [simpl in *; lia|].
  erewrite result_bind; [|done]. erewrite result_bind; [|done].
  pose proof (check_split_brain_in_range w p (w :: ts) 0 (p :: ps) st) as Hcheck.
  unfold bind at 1.
  destruct (check_split_brain w p (w :: ts) 0 (p :: ps) st) as [[[]|e|msg] s' t'];
    simpl in *; [|done|by apply Hcheck; lia].
  destruct (NewPrimaryAlias opts); [|done].
  destruct (vc !! _); [|done]. destruct (AtLeast _ _); [|done].
  by destruct (tm !! _).
Qed.

End Bounds.

Ltac wp_part_in_range Hlists :=
  lazymatch goal with
  | |- wp (waitForAllRelayLogsToApply _ _ _ _) _ _ =>
      wp_use waitForAllRelayLogsToApply_spec
  | |- wp (findMostAdvanced _ _ _ _) _ _ =>
      eapply wp_conseq;
      [eapply findMostAdvanced_in_range;
       [exact Hlists
       |match goal with
        | H : bool_decide (size _ = 0) = false |- _ =>
            exact (proj1 (bool_decide_eq_false _) H)
        end]
      |cbv beta; intros ?r ?s ?t ?H]
  | |- wp (intermediateCandidateIsIdeal _ _ _ _ _) _ _ =>
      wp_use intermediateCandidateIsIdeal_spec
  | |- wp (promoteIntermediatePrimary _ _ _ _) _ _ =>
      wp_use promoteIntermediatePrimary_spec
  | |- wp (identifyPrimaryCandidate _ _ _ _ _) _ _ =>
      wp_use identifyPrimaryCandidate_spec
  | |- wp (promoteNewPrimary _ _ _ _) _ _ => wp_use promoteNewPrimary_spec
  end;
  repeat first
    [ progress destruct_and?
    | match goal with H : ∃ _, _ |- _ => destruct H end ];
  subst;
  try lazymatch goal with
  | |- match ?r with _ => _ end => destruct r as [?a| ?e| ?msg]
  end;
  try lazymatch goal with
  | H : returns (Panic _) |- _ => destruct H
  end.

Section BoundsOfRun.
Context `{C : Collaborators}.

Lemma reparentShardLocked_in_range ks sh opts st :
  lists_every_candidate →
  wp (reparentShardLocked ks sh opts) st (λ r s t, returns r).
Proof.
  intros Hlists. unfold reparentShardLocked.
  repeat first [wp_step | wp_part_in_range Hlists].
  all: simpl; try done.
  all: by destruct (undo_deferred _ _).
Qed.

(** X13: the operation indexes no slice out of its bounds.  Provided
    getValidCandidatesAndPositionsAsList returns a tablet and a position for
    every valid candidate, ReparentShard returns: the two slices that
    findMostAdvanced indexes are not empty, thanks to the check for no valid
    candidates that precedes it, and they have the same length. *)
Theorem run_stays_in_range ks sh opts st :
  lists_every_candidate →
  returns (result (ReparentShard ks sh opts st)).
Proof.
  intros Hlists.
  destruct (lock_result ks sh opts st).1 as [lockErr|] eqn:Hlock.
  - by rewrite (ReparentShard_not_locked _ _ _ _ _ Hlock).
  - rewrite (ReparentShard_locked _ _ _ _ Hlock). cbn [result].
    pose proof (reparentShardLocked_in_range ks sh (locked_opts opts)
                  (locked_state ks sh opts st) Hlists) as Hrun.
    unfold wp in Hrun. by destruct (result (reparentShardLocked _ _ _ _)).
Qed.

End BoundsOfRun.
(** ** Runs on scripted clusters *)

Module Examples.
Import Cluster.

Definition a1 : Tablet := mkTablet 1 (mkAlias "z1" 1) REPLICA.
Definition a2 : Tablet := mkTablet 2 (mkAlias "z1" 2) REPLICA.
Definition a3 : Tablet := mkTablet 3 (mkAlias "z1" 3) REPLICA.
Definition b1 : Tablet := mkTablet 4 (mkAlias "z2" 1) REPLICA.
Definition old : Tablet := mkTablet 5 (mkAlias "z1" 9) PRIMARY.

Definition no_opts : EmergencyReparentOptions := mkOpts None ∅ 1000 false "".
Definition same_cell_opts : EmergencyReparentOptions := mkOpts None ∅ 1000 true "".

Definition start (s : Script) : @St (scripted s) :=
  @mkSt (scripted s) tt (mkStats 0 0 0) (mkReparent None None).

(** Three replicas in one cell, the second the most advanced; the previous
    primary is gone from the shard record. *)
Definition three_replicas : Script :=
  mkScript [a1; a2; a3] None
           [("z1-1", [1]); ("z1-2", [1; 2; 3]); ("z1-3", [1; 2])]
           false false [] [].

(** No tablet reports a position. *)
Definition no_positions : Script :=
  mkScript [a1; a2] None [] false false [] [].

(** The shard lock cannot be taken. *)
Definition lock_held : Script :=
  mkScript [a1; a2] None [("z1-1", [1]); ("z1-2", [1; 2])] true false [] [].

(** The previous primary was in z1 and cannot be reached; the only
    candidate is in z2. *)
Definition other_cell (undo_fails : bool) : Script :=
  mkScript [old; b1] (Some (Alias old)) [("z2-1", [1; 2])] false false []
           (if undo_fails then [Alias old] else []).

Definition run (s : Script) (opts : EmergencyReparentOptions) :=
  @ReparentShard (scripted s) "ks" "0" opts (start s).

Lemma no_valid_candidates_aborts_witness :
  (∃ e, result (run no_positions no_opts) = Ok (Some e, Some no_valid_candidates)) ∧
  Code_of no_valid_candidates = Code_FAILED_PRECONDITION ∧
  Forall (λ e, ¬ later_step e) (trace (run no_positions no_opts)).
Proof.
  apply (@no_valid_candidates_aborts (scripted no_positions)).
  vm_compute. trace_in.
Defined.

Lemma counters_once_locked_witness :
  (int64_min ≤ ersSuccessCounter (stats (start three_replicas)) < int64_max)%Z ∧
  (int64_min ≤ ersFailureCounter (stats (start three_replicas)) < int64_max)%Z ∧
  (∃ e, result (run three_replicas no_opts) = Ok (e, None)) ∧
  ersSuccessCounter (stats (final (run three_replicas no_opts))) = (0 + 1)%Z ∧
  ersFailureCounter (stats (final (run three_replicas no_opts))) = 0%Z.
Proof.
  split; [by vm_compute|]. split; [by vm_compute|].
  split; [by eexists; vm_compute|].
  eapply (@counters_once_locked (scripted three_replicas) "ks" "0" no_opts
            (start three_replicas) ltac:(by vm_compute) ltac:(by vm_compute) _ None).
  vm_compute. reflexivity.
Defined.

(** C9 as stated fails when the lock is not acquired: the operation returns
    an error and the failure counter is not incremented. *)
Lemma lock_failure_is_not_counted :
  result (run lock_held no_opts) = Ok (None, Some (unavailable "lock held")) ∧
  ersFailureCounter (stats (final (run lock_held no_opts))) ≠
    (ersFailureCounter (stats (start lock_held)) + 1)%Z ∧
  ersSuccessCounter (stats (final (run lock_held no_opts))) ≠
    (ersSuccessCounter (stats (start lock_held)) + 1)%Z.
Proof. by vm_compute. Qed.


Definition geographic_constraint (t : Tablet) : Error :=
  Errorf Code_ABORTED "elected primary does not satisfy geographic constraint - %s"
         [ArgString (alias_string (Alias t))].

Lemma constraint_failure_is_undone_witness :
  ∃ undo,
    Enter (F_promoteNewPrimary old) ∈ trace (run (other_cell true) same_cell_opts) ∧
    Return_ (F_promoteNewPrimary old) undo ∈ trace (run (other_cell true) same_cell_opts) ∧
    (∀ x undo', Return_ (F_promoteNewPrimary x) undo'
                  ∈ trace (run (other_cell true) same_cell_opts) →
                x = old ∧ undo' = undo) ∧
    ∃ e, result (run (other_cell true) same_cell_opts) =
         Ok (Some e, Some (match undo with
                           | None => geographic_constraint b1
                           | Some err => undo_failed err (geographic_constraint b1)
                           end)).
Proof.
  apply (@constraint_failure_is_undone (scripted (other_cell true)) "ks" "0"
           same_cell_opts (start (other_cell true)) b1 (Some old)
           (geographic_constraint b1)).
  vm_compute. trace_in.
Defined.

(** The sorted candidates of [three_replicas]. *)
Definition sorted_replicas : list Tablet := [a2; a3; a1].



Lemma no_previous_primary_any_cell_witness :
  checkIfConstraintsSatisfied (C := scripted three_replicas) b1 None same_cell_opts = None.
Proof.
  apply (@no_previous_primary_any_cell (scripted three_replicas) b1 same_cell_opts).
  vm_compute. discriminate.
Defined.

(** *** identifyPrimaryCandidate with a requested primary *)

Definition request (t : Tablet) : EmergencyReparentOptions :=
  mkOpts (Some (Alias t)) ∅ 1000 true "".



(** *** findMostAdvanced *)

Lemma at_least_incl a b : at_least a b = true ↔ ∀ x, In x b → In x a.
Proof.
  unfold at_least. rewrite forallb_forall. split; intros H x Hx.
  - apply H in Hx. apply existsb_exists in Hx as (y & Hy & ->%Nat.eqb_eq). done.
  - apply existsb_exists. exists x. split; [by apply H|apply Nat.eqb_refl].
Qed.

Lemma at_least_refl p : at_least p p = true.
Proof. by apply at_least_incl. Qed.

Lemma at_least_trans a b c :
  at_least a b = true → at_least b c = true → at_least a c = true.
Proof. rewrite !at_least_incl. auto. Qed.

(** Two replicas whose positions have diverged. *)
Definition diverged : Script :=
  mkScript [a1; a2] None [("z1-1", [1; 2]); ("z1-2", [1; 3])] false false [] [].

Definition diverged_positions : gmap string Pos := list_to_map (positions diverged).

Lemma diverged_listed :
  candidates_listed (C := scripted diverged) diverged_positions (tablet_map diverged)
                    [a2; a1] [[1; 3]; [1; 2]].
Proof.
  exists [("z1-2", [1; 3]); ("z1-1", [1; 2])].
  split; [vm_compute; first [reflexivity|apply perm_swap]|].
  split; [done|]. repeat (constructor; [by vm_compute|]). constructor.
Qed.

Lemma split_brain_detected_witness :
  ∃ a b,
    result (findMostAdvanced (C := scripted diverged) None diverged_positions
              (tablet_map diverged) no_opts (start diverged))
    = Err (split_brain a b) ∧
    Code_of (split_brain a b) = Code_FAILED_PRECONDITION.
Proof.
  apply (proj1 (@split_brain_detected (scripted diverged) None diverged_positions
                  (tablet_map diverged) no_opts (start diverged)
                  ([a1; a2], [[1; 2]; [1; 3]]) [a2; a1] [[1; 3]; [1; 2]]
                  ltac:(by vm_compute) ltac:(by vm_compute) diverged_listed
                  at_least_refl at_least_trans)).
  exists [1; 3], "z1-1", [1; 2]. by vm_compute.
Defined.

(** Two replicas, the second ahead of the first. *)
Definition two_replicas : Script :=
  mkScript [a1; a2] None [("z1-1", [1]); ("z1-2", [1; 2])] false false [] [].

Definition two_positions : gmap string Pos := list_to_map (positions two_replicas).

Lemma two_listed :
  candidates_listed (C := scripted two_replicas) two_positions (tablet_map two_replicas)
                    [a2; a1] [[1; 2]; [1]].
Proof.
  exists [("z1-2", [1; 2]); ("z1-1", [1])].
  split; [vm_compute; first [reflexivity|apply perm_swap]|].
  split; [done|]. repeat (constructor; [by vm_compute|]). constructor.
Qed.

(** The requested tablet is behind: the most advanced one stays. *)
Lemma requested_primary_as_intermediate_witness :
  result (findMostAdvanced (C := scripted two_replicas) None two_positions
            (tablet_map two_replicas) (request a1) (start two_replicas))
  = Ok (a2, [a2; a1]).
Proof.
  exact (@requested_primary_as_intermediate (scripted two_replicas) None two_positions
           (tablet_map two_replicas) (request a1) (start two_replicas)
           ([a1; a2], [[1]; [1; 2]]) [a2; a1] [[1; 2]; [1]] (Alias a1) a2 [1; 2]
           eq_refl ltac:(by vm_compute) ltac:(by vm_compute) two_listed eq_refl eq_refl
           eq_refl).
Defined.

(** *** reparentReplicas *)

Definition wait_for_all (s : Script) :=
  reparentReplicas (C := scripted s) a2 (tablet_map s) ∅ no_opts true false (start s).


(** The position of the new primary cannot be read. *)
Definition primary_silent : Script :=
  mkScript [a1; a2] None [("z1-1", [1]); ("z1-2", [1; 2])] false true [] [].



(** *** The event, the order of the changes, and the parts *)

Lemma event_names_promoted_primary_witness :
  result (run (other_cell false) same_cell_opts) =
    Ok (Some (mkReparent (Some (mkShardInfo (Some (Alias old)))) (Some old)),
        Some (geographic_constraint b1)) ∧
  (Some (geographic_constraint b1) = None → is_Some (Some old)) ∧
  ∀ np, Some old = Some np ↔
        Return_ (F_promoteNewPrimary np) None
          ∈ trace (run (other_cell false) same_cell_opts).
Proof.
  split; [by vm_compute|].
  apply (@event_names_promoted_primary (scripted (other_cell false)) "ks" "0"
           same_cell_opts (start (other_cell false))
           (mkReparent (Some (mkShardInfo (Some (Alias old)))) (Some old))
           (Some (geographic_constraint b1))).
  by vm_compute.
Defined.

(** The requested primary is behind the most advanced replica: the
    replicas are reparented to that one first, and the requested primary
    catches up with it before it is promoted. *)
Definition catch_up_run := run two_replicas (request a1).

Lemma tablet_changes_follow_preparation_witness :
  prepared (take 31 (trace catch_up_run)).
Proof.
  apply (@tablet_changes_follow_preparation (scripted two_replicas) "ks" "0"
           (request a1) (start two_replicas)
           (take 31 (trace catch_up_run))
           (Rpc_SetMaster a1 (Alias a2) true)
           (drop 32 (trace catch_up_run)));
    [by vm_compute|exact I].
Defined.

Lemma promotion_once_after_constraint_check_witness :
  checked a1 (take 43 (trace catch_up_run)) ∧
  (∀ x, Rpc_PromoteReplica x ∉ take 43 (trace catch_up_run)) ∧
  (∀ x, Rpc_PromoteReplica x ∉ drop 44 (trace catch_up_run)).
Proof.
  apply (@promotion_once_after_constraint_check (scripted two_replicas) "ks" "0"
           (request a1) (start two_replicas)).
  by vm_compute.
Defined.

Lemma journal_only_on_promoted_witness :
  Rpc_PromoteReplica a1 ∈ take 48 (trace catch_up_run) ∧
  Rpc_MasterPosition a1 ∈ take 48 (trace catch_up_run).
Proof.
  apply (@journal_only_on_promoted (scripted two_replicas) "ks" "0"
           (request a1) (start two_replicas) _ a1
           (drop 49 (trace catch_up_run))).
  by vm_compute.
Defined.

Lemma catch_up_follows_intermediate_reparent_witness :
  Alias a1 ≠ Alias a2 ∧
  Return_ (F_reparentReplicas a2 true false) None ∈ take 38 (trace catch_up_run).
Proof.
  apply (@catch_up_follows_intermediate_reparent (scripted two_replicas) "ks" "0"
           (request a1) (start two_replicas) _ a2 a1
           (drop 39 (trace catch_up_run))).
  by vm_compute.
Defined.

(** reparentReplicas for the promoted tablet: it does not wait for all the
    replicas, and writes the journal. *)
Definition first_success (s : Script) :=
  reparentReplicas (C := scripted s) a2 (tablet_map s) ∅ no_opts false true (start s).

Lemma reparentReplicas_fails_only_if_all_failed_witness :
  ((∃ e, result (first_success three_replicas) = Err e) →
   Select AllReplicasDone ∈ trace (first_success three_replicas) ∧
   length (recorded_errors (trace (first_success three_replicas))) =
   length (fanout (C := scripted three_replicas) a2 (tablet_map three_replicas) no_opts)) ∧
  (Select AllReplicasDone ∈ trace (first_success three_replicas) →
   length (recorded_errors (trace (first_success three_replicas))) =
   length (fanout (C := scripted three_replicas) a2 (tablet_map three_replicas) no_opts) →
   length (fanout (C := scripted three_replicas) a2 (tablet_map three_replicas) no_opts) ≠ 0 →
   ∃ e, result (first_success three_replicas) = Err e) ∧
  (Select ReplSuccessDone ∈ trace (first_success three_replicas) →
   false = false ∧ result (first_success three_replicas) = Ok [] ∧
   (length (recorded_errors (trace (first_success three_replicas))) <
    length (fanout (C := scripted three_replicas) a2 (tablet_map three_replicas) no_opts))%nat) ∧
  (length (recorded_errors (trace (first_success three_replicas))) ≤
   length (fanout (C := scripted three_replicas) a2 (tablet_map three_replicas) no_opts))%nat.
Proof.
  apply (@reparentReplicas_fails_only_if_all_failed (scripted three_replicas) a2
           (tablet_map three_replicas) ∅ no_opts false true (start three_replicas)).
  intros Hin. vm_compute in Hin.
  repeat (apply elem_of_cons in Hin as [Hin|Hin]; [discriminate|]).
  by apply elem_of_nil in Hin.
Defined.

(** *** The selection without a requested primary *)

Lemma find_candidate_in np prev l a b c :
  find_candidate np prev l a b = Some c → c ∈ l.
Proof.
  induction l as [|x l IH]; simpl; [done|].
  repeat case_match; intros; simplify_eq;
    first [apply list_elem_of_here|apply list_elem_of_further; by apply IH].
Qed.

Lemma find_candidate_same_cell np p l a c :
  find_candidate np (Some p) l a true = Some c → Cell (Alias c) = Cell (Alias p).
Proof.
  induction l as [|x l IH]; simpl; [done|].
  destruct (a && negb (TabletAliasEqual (Alias np) (Alias x))); [done|].
  case_bool_decide as Hcell; simpl; [|done]. by intros [= <-].
Qed.

Lemma candidate_without_request_witness :
  ∃ c, result (identifyPrimaryCandidate (C := scripted three_replicas) a2 (Some old)
                 [a2; a3; b1] (tablet_map three_replicas) same_cell_opts
                 (start three_replicas)) = Ok c ∧
       (c = a2 ∨
        (c ∈ [a2; a3; b1] ∧
         PromotionRule (Collaborators := scripted three_replicas) c
           ≠ PreferNotPromoteRule ∧
         PromotionRule (Collaborators := scripted three_replicas) c
           ≠ MustNotPromoteRule)) ∧
       (c = a2 ∨ Cell (Alias c) = Cell (Alias old)).
Proof.
  destruct (@candidate_without_request (scripted three_replicas) a2 (Some old)
              [a2; a3; b1] (tablet_map three_replicas) same_cell_opts
              (start three_replicas) eq_refl
              (λ l' a b c, find_candidate_in a2 (Some old) l' a b c))
    as (c & Hres & Hin & Hcell).
  exists c. split; [exact Hres|]. split; [exact Hin|].
  apply Hcell; [|reflexivity|reflexivity].
  intros l' a c' p [= <-]. apply find_candidate_same_cell.
Defined.

(** *** Bounds *)

Lemma candidates_as_list_length tm l r :
  candidates_as_list tm l = inr r → length r.1 = length l ∧ length r.2 = length l.
Proof.
  revert r. induction l as [|g l IH]; intros r; simpl.
  - by intros [= <-].
  - destruct (tm !! g.1); [|done].
    destruct (candidates_as_list tm l) as [e|r']; [done|].
    intros [= <-]. simpl. destruct (IH r' eq_refl) as [-> ->]. done.
Qed.

Lemma scripted_lists_every_candidate s :
  lists_every_candidate (C := scripted s).
Proof.
  intros vc tm lists Hl. apply candidates_as_list_length in Hl.
  by rewrite length_map_to_list in Hl.
Qed.

Lemma run_stays_in_range_witness :
  returns (result (run three_replicas no_opts)).
Proof.
  apply (@run_stays_in_range (scripted three_replicas) "ks" "0" no_opts
           (start three_replicas)).
  apply scripted_lists_every_candidate.
Defined.

End Examples.
(** * The expression environment (evalengine.ExpressionEnv)

    The part of [go/vt/vtgate/evalengine/expr_env.go] that answers who and
    where the session is: the current user, database and time zone. *)
Module evalengine.

Section ExpressionEnv.
(** The types of the other packages that the environment holds:
    [*time.Location], [time.Time], [vmstate], [*querypb.BindVariable],
    [sqltypes.Value] and [*querypb.Field]. *)
Variables (Location Time vmstate BindVariable Value Field : Type).

(** A value of the interface VCursor: its two methods. *)
Record VCursor := mkVCursor {
  TimeZone : option Location;
  GetKeyspace : string
}.

(** querypb.VTGateCallerID *)
Record VTGateCallerID := mkCallerID {
  Username : string;
  Groups : list string
}.

(** ExpressionEnv contains the environment that the expression evaluates in,
    such as the current row and bindvars.  [vc] and [user] may be nil. *)
Record ExpressionEnv := mkEnv {
  vm : vmstate;
  BindVars : gmap string BindVariable;
  Row : list Value;
  Fields : list Field;
  now : Time;
  vc : option VCursor;
  user : option VTGateCallerID
}.

(** strings.HasPrefix *)
Fixpoint strings_HasPrefix (s prefix : string) : bool :=
  match prefix, s with
  | EmptyString, _ => true
  | String p prefix', String c s' => bool_decide (c = p) && strings_HasPrefix s' prefix'
  | String _ _, EmptyString => false
  end.

(** strings.Contains reports whether substr is within s. *)
Fixpoint strings_Contains (s substr : string) : bool :=
  strings_HasPrefix s substr ||
  match s with
  | EmptyString => false
  | String _ s' => strings_Contains s' substr
  end.

Definition currentUser (env : ExpressionEnv) : string :=
  match user env with
  | None => "vt_app@localhost"
  | Some u =>
      let user := Username u in
      if negb (strings_Contains user "@") then user +:+ "@localhost" else user
  end.

Definition currentDatabase (env : ExpressionEnv) : string :=
  match vc env with
  | None => ""
  | Some vc => GetKeyspace vc
  end.

Definition currentTimezone (env : ExpressionEnv) : option Location :=
  match vc env with
  | None => None
  | Some vc => TimeZone vc
  end.

Lemma strings_Contains_app s t substr :
  strings_Contains t substr = true → strings_Contains (s +:+ t) substr = true.
Proof.
  intros Ht. induction s as [|c s IH]; simpl; [done|].
  rewrite IH. apply orb_true_r.
Qed.

(** X14: the current user always names a host.  The name that currentUser
    returns contains an at sign, whoever the caller is: a name that has one
    is returned as it is, localhost is appended to one that has none, and
    without a caller the user is vt_app at localhost. *)
Theorem currentUser_names_a_host env :
  strings_Contains (currentUser env) "@" = true ∧
  ∀ u, user env = Some u →
       currentUser env =
       if strings_Contains (Username u) "@" then Username u
       else Username u +:+ "@localhost".
Proof.
  unfold currentUser. split.
  - destruct (user env) as [u|]; [|done]. cbv zeta.
    destruct (strings_Contains (Username u) "@") eqn:Hu; simpl; [done|].
    by apply strings_Contains_app.
  - intros u ->. cbv zeta. by destruct (strings_Contains (Username u) "@").
Qed.

End ExpressionEnv.

End evalengine.
